(** * delg: lifetime-aware delegates (include/delegate.hpp)

    A shallow embedding of the header: the reference-counted liveness
    token an [observer] mints, the registry of [FunctionPair]s a
    [delegate] keeps, the two invocation strategies, and the
    [delegate_value] wrapper; followed by the properties of each. *)

From stdpp Require Import base list.
From Equations Require Import Equations.
From Equations.Prop Require Import Logic.
From Stdlib Require Import ZArith Lia.

(** ** std::shared_ptr<bool> / std::weak_ptr<bool>

    [std::make_shared<bool>(true)] allocates one control block that holds
    the bool together with a strong and a weak reference count.  A
    [shared_ptr] or [weak_ptr] is the address of its control block.  The
    header never reads the bool: liveness is [weak_ptr::expired()], that is
    [use_count() == 0].  Control blocks are never deallocated in the model,
    so an address is never handed out twice. *)

Record control_block := ControlBlock {
  stored : bool;        (* the bool managed by the shared_ptr *)
  use_count : nat;      (* number of shared_ptr owners *)
  weak_count : nat      (* number of weak_ptr observers *)
}.

Abbreviation heap := (list control_block).

Definition make_shared (b : bool) (h : heap) : nat * heap :=
  (length h, h ++ [ControlBlock b 1 0]).

Definition incr_use (cb : control_block) : control_block :=
  ControlBlock (stored cb) (S (use_count cb)) (weak_count cb).
Definition decr_use (cb : control_block) : control_block :=
  ControlBlock (stored cb) (pred (use_count cb)) (weak_count cb).
Definition incr_weak (cb : control_block) : control_block :=
  ControlBlock (stored cb) (use_count cb) (S (weak_count cb)).
Definition decr_weak (cb : control_block) : control_block :=
  ControlBlock (stored cb) (use_count cb) (pred (weak_count cb)).

(* shared_ptr copy constructor and destructor *)
Definition shared_copy (p : nat) (h : heap) : heap := alter incr_use p h.
Definition shared_release (p : nat) (h : heap) : heap := alter decr_use p h.
(* weak_ptr constructed from a shared_ptr, and weak_ptr destructor *)
Definition weak_acquire (p : nat) (h : heap) : heap := alter incr_weak p h.
Definition weak_release (p : nat) (h : heap) : heap := alter decr_weak p h.

(* weak_ptr::expired(); a weak_ptr without a control block is expired *)
Definition expired (h : heap) (p : nat) : bool :=
  match h !! p with
  | Some cb => Nat.eqb (use_count cb) 0
  | None => true
  end.

(** ** class observer (lines 33-39) *)

Record observer := Observer { valid : nat (* std::shared_ptr<bool> valid *) }.

(* observer() : valid(std::make_shared<bool>(true)) {} *)
Definition observer_ctor (h : heap) : observer * heap :=
  let '(p, h') := make_shared true h in (Observer p, h').

(* The class declares no copy constructor, so the implicit one copies
   [valid] member-wise: the copy shares the token of the original and
   owns it too.  [None]: [o] is not a live object. *)
Definition observer_copy (o : observer) (h : heap) : option (observer * heap) :=
  if expired h (valid o) then None
  else Some (Observer (valid o), shared_copy (valid o) h).

(* virtual ~observer() = default; releases [valid].
   [None]: [o] is not a live object. *)
Definition observer_dtor (o : observer) (h : heap) : option heap :=
  if expired h (valid o) then None
  else Some (shared_release (valid o) h).

(** ** class delegate<TReturnType(TArgs...)> (lines 102-188) *)

Section Delegate.
(* std::type_info, and its hash_code(), which the standard library
   provides *)
Context {type_info : Type}.
Variable hash_code : type_info -> N.
(* TArgs is the tuple of arguments of the signature *)
Context {TReturnType TArgs : Type}.

(* std::function<TReturnType(TArgs...)>: the stored target and the
   type_info that target_type() reports for it.  A target is modelled by
   the value it returns for its arguments; that it was called, and with
   what, is recorded in the trace of the invocation. *)
Record FunctionType := Function {
  target_type : type_info;
  target : TArgs -> TReturnType
}.

(* using ObserversType = std::vector<std::weak_ptr<bool>> *)
Definition ObserversType := list nat.

Record FunctionPair := MkFunctionPair {
  function : FunctionType;
  observers : ObserversType
}.

(* bool is_expired(): the range-for with its early return *)
Fixpoint any_expired (h : heap) (observers : ObserversType) : bool :=
  match observers with
  | [] => false
  | observer :: rest =>
      if expired h observer then true else any_expired h rest
  end.

Definition is_expired (h : heap) (f : FunctionPair) : bool :=
  any_expired h (observers f).

(* static constexpr size_t hash(const FunctionType &function) *)
Definition hash (function : FunctionType) : N :=
  hash_code (target_type function).

(* The mutex is a member; a lock_guard holds it for the whole body of
   every operation. *)
Record delegate := Delegate {
  functions : list FunctionPair
}.

(* Destroying a FunctionPair destroys its weak_ptrs. *)
Definition destroy_pair (f : FunctionPair) (h : heap) : heap :=
  foldr weak_release h (observers f).

(* Destroying a run of entries, front to back. *)
Fixpoint destroy_pairs (fs : list FunctionPair) (h : heap) : heap :=
  match fs with
  | [] => h
  | f :: rest => destroy_pairs rest (destroy_pair f h)
  end.

(* What an invocation does, in order: the lock_guard, the entries it
   erases and the callables it calls. *)
Inductive event :=
| EvLock
| EvUnlock
| EvErase (f : FunctionPair)
| EvCall (f : FunctionPair) (params : TArgs).

(* An entry the walk keeps, and the one event the walk makes of each
   entry. *)
Definition alive (h : heap) (f : FunctionPair) : bool :=
  negb (is_expired h f).

Definition walk_event (h : heap) (params : TArgs) (f : FunctionPair)
  : event :=
  if is_expired h f then EvErase f else EvCall f params.

(** *** invoker<TReturnType, TArgs...>::invoke (lines 51-69)

    The iterator [it] is a position in [functions]; [it == end()] is
    [functions !! it = None].  [erase(it)] removes the element at [it],
    destroys it, and returns the same position.

    Line 64 does not call [it->function] the way line 96 does: it
    applies the unary operator [*] to [it->function] and calls what that
    gives.  [it->function] is a std::function, a class that declares
    [operator()] and no unary [operator*], so the expression has no
    meaning, whatever [TReturnType] and [TArgs] are, and the member
    function has no instantiation.  The loop is therefore written over
    the meaning [call] of that one expression, and [invoke] has a result
    only if the expression has a meaning. *)

(* The meaning of the call expression of line 64, as a function of
   [it->function] and [params...]: there is none. *)
Definition line_64 : option (FunctionType -> TArgs -> TReturnType) := None.

Equations? invoke_loop (call : FunctionType -> TArgs -> TReturnType)
    (params : TArgs) (h : heap)
    (functions : list FunctionPair) (it : nat)
    (returnValues : list TReturnType) (tr : list event)
  : heap * list FunctionPair * list TReturnType * list event
  by wf (length functions - it) lt :=
  invoke_loop call params h functions it returnValues tr
    with inspect (functions !! it) => {
    | exist _ None _ := (h, functions, returnValues, tr);
    | exist _ (Some f) Hit with is_expired h f => {
      | true :=
          invoke_loop call params (destroy_pair f h) (delete it functions) it
            returnValues (tr ++ [EvErase f]);
      | false :=
          invoke_loop call params h functions (S it)
            (returnValues ++ [call (function f) params])
            (tr ++ [EvCall f params]) } }.
Proof.
  - rewrite length_delete by eauto. apply lookup_lt_Some in Hit. lia.
  - apply lookup_lt_Some in Hit. lia.
Qed.

(* The body of [invoke], lines 53-68, given a meaning of line 64. *)
Definition invoke_body (call : FunctionType -> TArgs -> TReturnType)
    (h : heap) (del : delegate) (params : TArgs)
  : heap * delegate * list TReturnType * list event :=
  let '(h', functions', returnValues, tr) :=
    invoke_loop call params h (functions del) 0 [] [EvLock] in
  (h', Delegate functions', returnValues, tr ++ [EvUnlock]).

(* [invoke] as the header has it: [None], the member function cannot be
   instantiated. *)
Definition invoke (h : heap) (del : delegate) (params : TArgs)
  : option (heap * delegate * list TReturnType * list event) :=
  match line_64 with
  | Some call => Some (invoke_body call h del params)
  | None => None
  end.

(** *** add, remove, clear (lines 112-142) *)

(* The range-for of [add]: one weak_ptr per observer argument, taken
   from the argument's [valid] (through __as_ptr) and appended to the
   local [observers]. *)
Fixpoint collect_observers (h : heap) (observers : ObserversType)
    (args : list observer) : heap * ObserversType :=
  match args with
  | [] => (h, observers)
  | arg :: rest =>
      collect_observers (weak_acquire (valid arg) h)
        (observers ++ [valid arg]) rest
  end.

(* [FunctionPair{ std::move(function), observers }] copies the local
   vector into the new entry; the local is destroyed when [add]
   returns.  Nothing is tested for expiry and nothing is erased.
   [args] are the observers behind the arguments, whichever way each
   was passed (__as_ptr, lines 181-184). *)
Definition add (h : heap) (del : delegate) (func : FunctionType)
    (args : list observer) : heap * delegate :=
  let '(h1, observers) := collect_observers h [] args in
  let h2 := foldr weak_acquire h1 observers in
  let functions' := functions del ++ [MkFunctionPair func observers] in
  let h3 := foldr weak_release h2 observers in
  (h3, Delegate functions').

(* std::remove_if keeps, in order, the elements the predicate rejects;
   erase(new_end, end()) then destroys the others. *)
Definition remove_if (pred : FunctionPair -> bool)
    (l : list FunctionPair) : list FunctionPair :=
  List.filter (fun f => negb (pred f)) l.

Definition remove (h : heap) (del : delegate) (func : FunctionType)
  : heap * delegate :=
  let pred f := N.eqb (hash (function f)) (hash func) in
  (destroy_pairs (List.filter pred (functions del)) h,
   Delegate (remove_if pred (functions del))).

Definition clear (h : heap) (del : delegate) : heap * delegate :=
  (destroy_pairs (functions del) h, Delegate []).

End Delegate.

Arguments FunctionType : clear implicits.
Arguments FunctionPair : clear implicits.
Arguments delegate : clear implicits.
Arguments event : clear implicits.

(** ** invoker<void, TArgs...>::Invoke (lines 79-99)

    The strategy of a delegate<void(TArgs...)>; it is the one function
    of the void invoker, spelled with a capital.  A callable of a [void]
    signature returns [tt]; its call is seen in the trace only. *)
Section InvokerVoid.
Context {type_info TArgs : Type}.

Equations? Invoke_loop (params : TArgs) (h : heap)
    (functions : list (FunctionPair type_info unit TArgs)) (it : nat)
    (tr : list (event type_info unit TArgs))
  : heap * list (FunctionPair type_info unit TArgs)
    * list (event type_info unit TArgs)
  by wf (length functions - it) lt :=
  Invoke_loop params h functions it tr
    with inspect (functions !! it) => {
    | exist _ None _ := (h, functions, tr);
    | exist _ (Some f) Hit with is_expired h f => {
      | true :=
          Invoke_loop params (destroy_pair f h) (delete it functions) it
            (tr ++ [EvErase f]);
      | false :=
          let 'tt := target (function f) params in
          Invoke_loop params h functions (S it)
            (tr ++ [EvCall f params]) } }.
Proof.
  - rewrite length_delete by eauto. apply lookup_lt_Some in Hit. lia.
  - apply lookup_lt_Some in Hit. lia.
Qed.

Definition Invoke (h : heap) (del : delegate type_info unit TArgs)
    (params : TArgs)
  : heap * delegate type_info unit TArgs * list (event type_info unit TArgs) :=
  match functions del with
  | [] => (h, del, [EvLock; EvUnlock])       (* del.functions.empty() *)
  | _ :: _ =>
      let '(h', functions', tr) :=
        Invoke_loop params h (functions del) 0 [EvLock] in
      (h', Delegate functions', tr ++ [EvUnlock])
  end.

End InvokerVoid.

(** ** class delegate_value<T> : public delegate<void(T)> (lines 191-215) *)
Section DelegateValue.
Context {type_info T : Type}.

Record delegate_value := DelegateValue {
  base : delegate type_info unit T;    (* the inherited delegate<void(T)> *)
  value : T                            (* T value *)
}.

(* const T &get() const { return value; } *)
Definition get (self : delegate_value) : T := value self.

(* What the name [value] can stand for inside operator=(T value): the
   parameter and the member this->value.  The parameter's scope is the
   function body, which is nested in the class scope, so the plain
   name [value] is the parameter, for reading and for writing alike. *)
Record frame := Frame {
  param_value : T;      (* T value, the parameter *)
  this_value : T        (* this->value *)
}.

Definition read_value (fr : frame) : T := param_value fr.
Definition write_value (fr : frame) (v : T) : frame :=
  Frame v (this_value fr).

(* delegate_value &operator=(T value)
   {
     value = value;
     invoke(value);
     return *this;
   }
   [invoke] on the inherited delegate<void(T)> is the void strategy. *)
Definition assign (h : heap) (self : delegate_value) (value : T)
  : heap * delegate_value * list (event type_info unit T) :=
  let fr := Frame value (get self) in
  let fr := write_value fr (read_value fr) in
  let '(h', del', tr) := Invoke h (base self) (read_value fr) in
  (h', DelegateValue del' (this_value fr), tr).

End DelegateValue.

Arguments delegate_value : clear implicits.

(** ** Runs of a program that uses the header *)

(* What there is to know of a token: the bool and the number of owners. *)
Definition token_state (h : heap) (p : nat) : option (bool * nat) :=
  (fun cb => (stored cb, use_count cb)) <$> h !! p.

(* [p] is the address of a token that was minted. *)
Definition allocated (h : heap) (p : nat) : Prop := p < length h.

(* No token is minted and every token is as it was. *)
Definition keeps_tokens (h h' : heap) : Prop :=
  length h' = length h /\ forall q, token_state h' q = token_state h q.

(* One step of a program on the token heap: an observer is constructed,
   copied or destroyed, or an operation of some delegate of some
   signature runs; for the value strategy, the body of [invoke] under
   any meaning of line 64. *)
Inductive heap_step : heap -> heap -> Prop :=
| step_observer_ctor h :
    heap_step h (observer_ctor h).2
| step_observer_copy h o o' h' :
    observer_copy o h = Some (o', h') -> heap_step h h'
| step_observer_dtor h o h' :
    observer_dtor o h = Some h' -> heap_step h h'
| step_add {type_info TReturnType TArgs} h
    (del : delegate type_info TReturnType TArgs) func args :
    heap_step h (add h del func args).1
| step_remove {type_info TReturnType TArgs} hash_code h
    (del : delegate type_info TReturnType TArgs) func :
    heap_step h (remove hash_code h del func).1
| step_clear {type_info TReturnType TArgs} h
    (del : delegate type_info TReturnType TArgs) :
    heap_step h (clear h del).1
| step_invoke {type_info TReturnType TArgs} call h
    (del : delegate type_info TReturnType TArgs) params :
    heap_step h (invoke_body call h del params).1.1.1
| step_Invoke {type_info TArgs} h
    (del : delegate type_info unit TArgs) params :
    heap_step h (Invoke h del params).1.1.

(* any number of steps *)
Inductive heap_steps : heap -> heap -> Prop :=
| steps_refl h : heap_steps h h
| steps_step h1 h2 h3 : heap_step h1 h2 -> heap_steps h2 h3 -> heap_steps h1 h3.

(** ** Measures and client programs of the further properties *)

(* The weak_ptrs that observe the token at [q]; none where there is no
   control block. *)
Definition weak_refs (h : heap) (q : nat) : nat :=
  from_option weak_count 0 (h !! q).

(* How many of the weak references [ps] point at [q]. *)
Definition refs_in (ps : list nat) (q : nat) : nat :=
  count_occ Nat.eq_dec ps q.

Section Clients.
Context {type_info TReturnType TArgs : Type}.

(* How many weak references to [q] a run of entries holds. *)
Fixpoint registry_refs (fs : list (FunctionPair type_info TReturnType TArgs))
    (q : nat) : nat :=
  match fs with
  | [] => 0
  | f :: rest => refs_in (observers f) q + registry_refs rest q
  end.

(* Every weak reference the registry holds is counted in the heap. *)
Definition accounted (h : heap) (del : delegate type_info TReturnType TArgs)
  : Prop :=
  forall q, registry_refs (functions del) q <= weak_refs h q.

(* A caller that adds callables one after the other, none of them with
   an observer: del.add(f1); del.add(f2); ... *)
Fixpoint add_all (h : heap) (del : delegate type_info TReturnType TArgs)
    (funcs : list (FunctionType type_info TReturnType TArgs))
  : heap * delegate type_info TReturnType TArgs :=
  match funcs with
  | [] => (h, del)
  | func :: rest => let '(h', del') := add h del func [] in add_all h' del' rest
  end.

End Clients.

Section DelegateValueClients.
Context {type_info T : Type}.

(* delegate_value(Args... args) : value(std::forward<Args>(args)...) {}
   The inherited delegate is default-constructed; [v] is T(args...). *)
Definition delegate_value_ctor (v : T) : delegate_value type_info T :=
  DelegateValue (Delegate []) v.

(* const T &operator*() const { return value; } *)
Definition deref (self : delegate_value type_info T) : T := value self.

(* A caller that assigns one value after the other: w = v1; w = v2; ... *)
Fixpoint assign_all (h : heap) (self : delegate_value type_info T)
    (vs : list T) : heap * delegate_value type_info T :=
  match vs with
  | [] => (h, self)
  | v :: rest => assign_all (assign h self v).1.1 (assign h self v).1.2 rest
  end.

End DelegateValueClients.

(** * Properties *)

(** ** The token heap *)

Lemma expired_token_state h h' p :
  token_state h' p = token_state h p -> expired h' p = expired h p.
Proof.
  unfold token_state, expired.
  destruct (h' !! p) as [[]|], (h !! p) as [[]|]; simpl; congruence.
Qed.

Lemma token_state_alter_weak (g : control_block -> control_block) h p q :
  (forall cb, stored (g cb) = stored cb /\ use_count (g cb) = use_count cb) ->
  token_state (alter g p h) q = token_state h q.
Proof.
  intros Hg. unfold token_state. rewrite list_lookup_alter.
  destruct (decide (p = q)) as [->|]; [|done].
  destruct (h !! q) as [cb|]; [|done]. simpl.
  destruct (Hg cb) as [-> ->]. done.
Qed.

Lemma token_state_weak_acquire h p q :
  token_state (weak_acquire p h) q = token_state h q.
Proof. apply token_state_alter_weak. by intros []. Qed.

Lemma token_state_weak_release h p q :
  token_state (weak_release p h) q = token_state h q.
Proof. apply token_state_alter_weak. by intros []. Qed.

Lemma token_state_foldr_acquire ps h q :
  token_state (foldr weak_acquire h ps) q = token_state h q.
Proof.
  induction ps as [|p ps IH]; [done|]. simpl.
  by rewrite token_state_weak_acquire.
Qed.

Lemma token_state_foldr_release ps h q :
  token_state (foldr weak_release h ps) q = token_state h q.
Proof.
  induction ps as [|p ps IH]; [done|]. simpl.
  by rewrite token_state_weak_release.
Qed.

Lemma length_foldr_alter (g : nat -> heap -> heap) ps h :
  (forall p h, length (g p h) = length h) ->
  length (foldr g h ps) = length h.
Proof. intros Hg. induction ps as [|p ps IH]; simpl; [done|]. by rewrite Hg. Qed.

Lemma length_weak_acquire p h : length (weak_acquire p h) = length h.
Proof. apply length_alter. Qed.

Lemma length_weak_release p h : length (weak_release p h) = length h.
Proof. apply length_alter. Qed.

Section DelegateFacts.
Context {type_info TReturnType TArgs : Type}.
Implicit Types (f g : FunctionPair type_info TReturnType TArgs).
Implicit Types (fs : list (FunctionPair type_info TReturnType TArgs)).
Implicit Types (del : delegate type_info TReturnType TArgs).

Lemma token_state_destroy_pair f h q :
  token_state (destroy_pair f h) q = token_state h q.
Proof. apply token_state_foldr_release. Qed.

Lemma token_state_destroy_pairs fs h q :
  token_state (destroy_pairs fs h) q = token_state h q.
Proof.
  revert h. induction fs as [|f fs IH]; intros h; simpl; [done|].
  by rewrite IH, token_state_destroy_pair.
Qed.

Lemma length_destroy_pair f h : length (destroy_pair f h) = length h.
Proof. apply length_foldr_alter, length_weak_release. Qed.

Lemma length_destroy_pairs fs h : length (destroy_pairs fs h) = length h.
Proof.
  revert h. induction fs as [|f fs IH]; intros h; simpl; [done|].
  by rewrite IH, length_destroy_pair.
Qed.

Lemma any_expired_token_state h h' (ps : ObserversType) :
  (forall q, token_state h' q = token_state h q) ->
  any_expired h' ps = any_expired h ps.
Proof.
  intros Hq. induction ps as [|p ps IH]; simpl; [done|].
  by rewrite IH, (expired_token_state h h' p).
Qed.

Lemma is_expired_token_state h h' f :
  (forall q, token_state h' q = token_state h q) ->
  is_expired h' f = is_expired h f.
Proof. apply any_expired_token_state. Qed.

Lemma is_expired_destroy_pair g h f :
  is_expired (destroy_pair g h) f = is_expired h f.
Proof. apply is_expired_token_state, token_state_destroy_pair. Qed.

Lemma destroy_pairs_app fs1 fs2 h :
  destroy_pairs (fs1 ++ fs2) h = destroy_pairs fs2 (destroy_pairs fs1 h).
Proof. revert h. induction fs1 as [|f fs1 IH]; intros h; simpl; [done|]. apply IH. Qed.

Lemma take_delete_here {A} (l : list A) i : take i (delete i l) = take i l.
Proof.
  revert i. induction l as [|x l IH]; intros [|i]; simpl; try done.
  by rewrite IH.
Qed.

Lemma drop_delete_here {A} (l : list A) i : drop i (delete i l) = drop (S i) l.
Proof.
  revert i. induction l as [|x l IH]; intros [|i]; simpl; auto.
Qed.

Lemma alive_destroy_pair g h f : alive (destroy_pair g h) f = alive h f.
Proof. unfold alive. by rewrite is_expired_destroy_pair. Qed.

Lemma walk_event_destroy_pair g h (params : TArgs) f :
  walk_event (destroy_pair g h) params f = walk_event h params f.
Proof. unfold walk_event. by rewrite is_expired_destroy_pair. Qed.

(* The loop from position [it]: the entries before [it] stay, the
   expired ones after it are destroyed front to back, the others are
   called in order. *)
Lemma invoke_loop_spec call (params : TArgs) h fs it
    (returnValues : list TReturnType) tr :
  invoke_loop call params h fs it returnValues tr =
    (destroy_pairs (List.filter (is_expired h) (drop it fs)) h,
     take it fs ++ List.filter (alive h) (drop it fs),
     returnValues ++
       List.map (fun f => call (function f) params)
         (List.filter (alive h) (drop it fs)),
     tr ++ List.map (walk_event h params) (drop it fs)).
Proof.
  funelim (invoke_loop call params h fs it returnValues tr).
  - match goal with Hend : _ !! _ = None |- _ =>
      pose proof (lookup_ge_None_1 _ _ Hend) as Hge
    end.
    rewrite drop_ge, take_ge by done. simpl. by rewrite !app_nil_r.
  - match goal with IH : invoke_loop _ _ _ _ _ _ _ = (_, _, _, _) |- _ =>
      rewrite IH
    end.
    assert (alive h f = false) as Ha by (unfold alive; by rewrite Heq).
    assert (walk_event h params f = EvErase f) as Hw
      by (unfold walk_event; by rewrite Heq).
    rewrite take_delete_here, drop_delete_here, (drop_S _ _ _ Hit).
    cbn [List.filter List.map destroy_pairs]. rewrite Heq, Ha, Hw.
    rewrite <- !app_assoc. cbn [app].
    rewrite (List.filter_ext _ _ (is_expired_destroy_pair f h)).
    rewrite (List.filter_ext _ _ (alive_destroy_pair f h)).
    by rewrite (List.map_ext _ _ (walk_event_destroy_pair f h params)).
  - match goal with IH : invoke_loop _ _ _ _ _ _ _ = (_, _, _, _) |- _ =>
      rewrite IH
    end.
    assert (alive h f = true) as Ha by (unfold alive; by rewrite Heq).
    assert (walk_event h params f = EvCall f params) as Hw
      by (unfold walk_event; by rewrite Heq).
    rewrite (take_S_r _ _ _ Hit), (drop_S _ _ _ Hit).
    cbn [List.filter List.map destroy_pairs]. rewrite Heq, Ha, Hw.
    by rewrite <- !app_assoc.
Qed.

Lemma invoke_body_spec call h del (params : TArgs) :
  invoke_body call h del params =
    (destroy_pairs (List.filter (is_expired h) (functions del)) h,
     Delegate (List.filter (alive h) (functions del)),
     List.map (fun f => call (function f) params)
       (List.filter (alive h) (functions del)),
     EvLock :: List.map (walk_event h params) (functions del) ++ [EvUnlock]).
Proof.
  unfold invoke_body. rewrite invoke_loop_spec. by rewrite drop_0.
Qed.

Lemma collect_observers_spec h (observers : ObserversType) args :
  (collect_observers h observers args).2 = observers ++ List.map valid args
  /\ forall q,
      token_state (collect_observers h observers args).1 q = token_state h q.
Proof.
  revert h observers.
  induction args as [|arg args IH]; intros h observers; simpl.
  - by rewrite app_nil_r.
  - destruct (IH (weak_acquire (valid arg) h) (observers ++ [valid arg]))
      as [-> Hq].
    split; [by rewrite <- app_assoc|].
    intros q. by rewrite Hq, token_state_weak_acquire.
Qed.

Lemma add_functions h del func args :
  functions (add h del func args).2 =
    functions del ++ [MkFunctionPair func (List.map valid args)].
Proof.
  unfold add.
  pose proof (collect_observers_spec h [] args) as [Hobs _].
  destruct (collect_observers h [] args) as [h1 observers].
  simpl in *. by subst.
Qed.

Lemma add_token_state h del func args q :
  token_state (add h del func args).1 q = token_state h q.
Proof.
  unfold add.
  pose proof (collect_observers_spec h [] args) as [_ Hq].
  destruct (collect_observers h [] args) as [h1 observers].
  simpl in *.
  by rewrite token_state_foldr_release, token_state_foldr_acquire.
Qed.

Lemma in_any_expired h p (ps : ObserversType) :
  In p ps -> expired h p = true -> any_expired h ps = true.
Proof.
  induction ps as [|p' ps IH]; simpl; [done|].
  intros [->|Hin] Hp; [by rewrite Hp|].
  destruct (expired h p'); auto.
Qed.

Lemma any_expired_in h (ps : ObserversType) :
  any_expired h ps = true -> exists p, In p ps /\ expired h p = true.
Proof.
  induction ps as [|p' ps IH]; simpl; [done|].
  destruct (expired h p') eqn:Hp'; [by eauto|].
  intros [p [Hin Hp]]%IH. eauto.
Qed.

End DelegateFacts.

Section InvokerVoidFacts.
Context {type_info TArgs : Type}.
Implicit Types (f : FunctionPair type_info unit TArgs).
Implicit Types (fs : list (FunctionPair type_info unit TArgs)).

Lemma Invoke_loop_spec (params : TArgs) h fs it tr :
  Invoke_loop params h fs it tr =
    (destroy_pairs (List.filter (is_expired h) (drop it fs)) h,
     take it fs ++ List.filter (alive h) (drop it fs),
     tr ++ List.map (walk_event h params) (drop it fs)).
Proof.
  funelim (Invoke_loop params h fs it tr).
  - match goal with Hend : _ !! _ = None |- _ =>
      pose proof (lookup_ge_None_1 _ _ Hend) as Hge
    end.
    rewrite drop_ge, take_ge by done. simpl. by rewrite !app_nil_r.
  - match goal with IH : Invoke_loop _ _ _ _ _ = (_, _, _) |- _ =>
      rewrite IH
    end.
    assert (alive h f = false) as Ha by (unfold alive; by rewrite Heq).
    assert (walk_event h params f = EvErase f) as Hw
      by (unfold walk_event; by rewrite Heq).
    rewrite take_delete_here, drop_delete_here, (drop_S _ _ _ Hit).
    cbn [List.filter List.map destroy_pairs]. rewrite Heq, Ha, Hw.
    rewrite <- !app_assoc. cbn [app].
    rewrite (List.filter_ext _ _ (is_expired_destroy_pair f h)).
    rewrite (List.filter_ext _ _ (alive_destroy_pair f h)).
    by rewrite (List.map_ext _ _ (walk_event_destroy_pair f h params)).
  - destruct (target (function f) params).
    match goal with IH : Invoke_loop _ _ _ _ _ = (_, _, _) |- _ =>
      rewrite IH
    end.
    assert (alive h f = true) as Ha by (unfold alive; by rewrite Heq).
    assert (walk_event h params f = EvCall f params) as Hw
      by (unfold walk_event; by rewrite Heq).
    rewrite (take_S_r _ _ _ Hit), (drop_S _ _ _ Hit).
    cbn [List.filter List.map destroy_pairs]. rewrite Heq, Ha, Hw.
    by rewrite <- !app_assoc.
Qed.

Lemma Invoke_spec h (del : delegate type_info unit TArgs) (params : TArgs) :
  Invoke h del params =
    (destroy_pairs (List.filter (is_expired h) (functions del)) h,
     Delegate (List.filter (alive h) (functions del)),
     EvLock :: List.map (walk_event h params) (functions del) ++ [EvUnlock]).
Proof.
  unfold Invoke. destruct del as [[|f fs]]; [done|].
  cbn [functions]. rewrite Invoke_loop_spec. by rewrite drop_0.
Qed.

End InvokerVoidFacts.

(** ** Steps *)

Lemma token_state_make_shared b h q :
  allocated h q -> token_state (make_shared b h).2 q = token_state h q.
Proof.
  intros Hq. unfold token_state, make_shared. simpl.
  by rewrite lookup_app_l.
Qed.

Lemma expired_alter_use (g : control_block -> control_block) h p q :
  (forall cb, use_count cb = 0 -> use_count (g cb) = 0) ->
  expired h q = true -> allocated h q -> expired (alter g p h) q = true.
Proof.
  intros Hg Hq Hal. unfold expired in *. rewrite list_lookup_alter.
  destruct (decide (p = q)) as [->|]; [|done].
  destruct (h !! q) as [cb|] eqn:Hcb; simpl; [|done].
  apply Nat.eqb_eq in Hq. apply Nat.eqb_eq. auto.
Qed.

Lemma remove_keeps_tokens {type_info TReturnType TArgs} hash_code h
    (del : delegate type_info TReturnType TArgs) func :
  keeps_tokens h (remove hash_code h del func).1.
Proof.
  split; [apply length_destroy_pairs|]. intros q. apply token_state_destroy_pairs.
Qed.

Lemma clear_keeps_tokens {type_info TReturnType TArgs} h
    (del : delegate type_info TReturnType TArgs) :
  keeps_tokens h (clear h del).1.
Proof.
  split; [apply length_destroy_pairs|]. intros q. apply token_state_destroy_pairs.
Qed.

Lemma invoke_body_keeps_tokens {type_info TReturnType TArgs} call h
    (del : delegate type_info TReturnType TArgs) params :
  keeps_tokens h (invoke_body call h del params).1.1.1.
Proof.
  rewrite invoke_body_spec.
  split; [apply length_destroy_pairs|]. intros q. apply token_state_destroy_pairs.
Qed.

Lemma Invoke_keeps_tokens {type_info TArgs} h
    (del : delegate type_info unit TArgs) params :
  keeps_tokens h (Invoke h del params).1.1.
Proof.
  rewrite Invoke_spec.
  split; [apply length_destroy_pairs|]. intros q. apply token_state_destroy_pairs.
Qed.

Lemma length_collect_observers h (observers : ObserversType) args :
  length (collect_observers h observers args).1 = length h.
Proof.
  revert h observers. induction args as [|arg args IH]; intros h observers.
  - done.
  - simpl. by rewrite IH, length_weak_acquire.
Qed.

Lemma add_keeps_tokens {type_info TReturnType TArgs} h
    (del : delegate type_info TReturnType TArgs) func args :
  keeps_tokens h (add h del func args).1.
Proof.
  split; [|intros q; apply add_token_state].
  unfold add. pose proof (length_collect_observers h [] args) as Hlen.
  destruct (collect_observers h [] args) as [h1 observers]. simpl in *.
  rewrite (length_foldr_alter _ _ _ length_weak_release).
  by rewrite (length_foldr_alter _ _ _ length_weak_acquire).
Qed.

Lemma keeps_tokens_expired h h' q :
  keeps_tokens h h' -> expired h' q = expired h q.
Proof. intros [_ Hq]. by apply expired_token_state. Qed.

Lemma heap_step_length h h' : heap_step h h' -> length h <= length h'.
Proof.
  destruct 1 as [h|h o o' h' Hc|h o h' Hd| | | | | ].
  - simpl. rewrite length_app. lia.
  - unfold observer_copy in Hc. destruct (expired h (valid o)); [done|].
    injection Hc as _ <-. unfold shared_copy. by rewrite length_alter.
  - unfold observer_dtor in Hd. destruct (expired h (valid o)); [done|].
    injection Hd as <-. unfold shared_release. by rewrite length_alter.
  - by rewrite (proj1 (add_keeps_tokens _ _ _ _)).
  - by rewrite (proj1 (remove_keeps_tokens _ _ _ _)).
  - by rewrite (proj1 (clear_keeps_tokens _ _)).
  - by rewrite (proj1 (invoke_body_keeps_tokens _ _ _ _)).
  - by rewrite (proj1 (Invoke_keeps_tokens _ _ _)).
Qed.

(* No step revives a token. *)
Lemma heap_step_expired h h' p :
  heap_step h h' -> allocated h p -> expired h p = true -> expired h' p = true.
Proof.
  intros Hstep Hal Hp.
  destruct Hstep as [h|h o o' h' Hc|h o h' Hd| | | | | ].
  - simpl. transitivity (expired h p); [|done]. apply expired_token_state.
    by apply (token_state_make_shared true).
  - unfold observer_copy in Hc. destruct (expired h (valid o)) eqn:Ho; [done|].
    injection Hc as _ <-. unfold shared_copy.
    unfold expired in *. rewrite list_lookup_alter.
    destruct (decide (valid o = p)) as [<-|]; [|done].
    by rewrite Ho in Hp.
  - unfold observer_dtor in Hd. destruct (expired h (valid o)) eqn:Ho; [done|].
    injection Hd as <-. unfold shared_release.
    apply expired_alter_use; [|done..]. intros cb Hcb. simpl. by rewrite Hcb.
  - by rewrite (keeps_tokens_expired _ _ _ (add_keeps_tokens _ _ _ _)).
  - by rewrite (keeps_tokens_expired _ _ _ (remove_keeps_tokens _ _ _ _)).
  - by rewrite (keeps_tokens_expired _ _ _ (clear_keeps_tokens _ _)).
  - by rewrite (keeps_tokens_expired _ _ _ (invoke_body_keeps_tokens _ _ _ _)).
  - by rewrite (keeps_tokens_expired _ _ _ (Invoke_keeps_tokens _ _ _)).
Qed.

Lemma heap_steps_expired h h' p :
  heap_steps h h' -> allocated h p -> expired h p = true ->
  allocated h' p /\ expired h' p = true.
Proof.
  induction 1 as [h|h1 h2 h3 Hstep _ IH]; intros Hal Hp; [done|].
  apply IH.
  - apply heap_step_length in Hstep. unfold allocated in *. lia.
  - by eapply heap_step_expired.
Qed.

Lemma observer_dtor_owner h o b n :
  token_state h (valid o) = Some (b, S n) ->
  observer_dtor o h = Some (shared_release (valid o) h)
  /\ token_state (shared_release (valid o) h) (valid o) = Some (b, n).
Proof.
  intros Hts. unfold observer_dtor, expired, shared_release.
  unfold token_state in *. rewrite list_lookup_alter_eq.
  destruct (h !! valid o) as [[b' m w]|]; [|done].
  simpl in *. by injection Hts as -> ->.
Qed.

Lemma expired_of_token_state h p b n :
  token_state h p = Some (b, n) -> expired h p = Nat.eqb n 0.
Proof.
  unfold token_state, expired. destruct (h !! p) as [cb|]; [|done].
  simpl. by intros [= _ <-].
Qed.

Lemma not_expired_allocated h p : expired h p = false -> allocated h p.
Proof.
  unfold expired, allocated. destruct (h !! p) eqn:Hp; [|done].
  intros _. by eapply lookup_lt_Some.
Qed.

(* A token dies in a step only by the destructor of its last owner. *)
Lemma heap_step_dies h h' p :
  heap_step h h' -> expired h p = false -> expired h' p = true ->
  exists o b, valid o = p /\ observer_dtor o h = Some h'
    /\ token_state h p = Some (b, 1).
Proof.
  intros Hstep Hp Hp'.
  destruct Hstep as [h|h o o' h' Hc|h o h' Hd| | | | | ].
  - exfalso. simpl in Hp'.
    rewrite (expired_token_state h _ p) in Hp'; [congruence|].
    by apply (token_state_make_shared true), not_expired_allocated.
  - exfalso. unfold observer_copy in Hc.
    destruct (expired h (valid o)); [done|]. injection Hc as _ <-.
    unfold shared_copy, expired in *. rewrite list_lookup_alter in Hp'.
    destruct (decide (valid o = p)) as [<-|]; [|congruence].
    by destruct (h !! valid o).
  - unfold observer_dtor in Hd.
    destruct (expired h (valid o)) eqn:Ho; [done|]. injection Hd as <-.
    destruct (decide (valid o = p)) as [<-|Hne].
    + pose proof Ho as Ho'. unfold expired in Ho', Hp'.
      unfold shared_release in Hp'. rewrite list_lookup_alter_eq in Hp'.
      destruct (h !! valid o) as [[b n w]|] eqn:Hcb; [|done].
      destruct n as [|[|n]]; try done.
      exists o, b. split; [done|]. split.
      * unfold observer_dtor. by rewrite Ho.
      * unfold token_state. by rewrite Hcb.
    + exfalso. unfold shared_release, expired in *.
      rewrite list_lookup_alter_ne in Hp' by done. congruence.
  - exfalso. rewrite (keeps_tokens_expired _ _ _ (add_keeps_tokens _ _ _ _)) in Hp'. congruence.
  - exfalso. rewrite (keeps_tokens_expired _ _ _ (remove_keeps_tokens _ _ _ _)) in Hp'. congruence.
  - exfalso. rewrite (keeps_tokens_expired _ _ _ (clear_keeps_tokens _ _)) in Hp'. congruence.
  - exfalso. rewrite (keeps_tokens_expired _ _ _ (invoke_body_keeps_tokens _ _ _ _)) in Hp'. congruence.
  - exfalso. rewrite (keeps_tokens_expired _ _ _ (Invoke_keeps_tokens _ _ _)) in Hp'. congruence.
Qed.

(** ** Expired entries in a walk *)

Section Walk.
Context {type_info TReturnType TArgs : Type}.
Implicit Types (f g : FunctionPair type_info TReturnType TArgs).
Implicit Types (fs : list (FunctionPair type_info TReturnType TArgs)).

Lemma is_expired_of_token h f p :
  In p (observers f) -> expired h p = true -> is_expired h f = true.
Proof. apply in_any_expired. Qed.

Lemma filter_alive_snoc_expired h fs f :
  is_expired h f = true ->
  List.filter (alive h) (fs ++ [f]) = List.filter (alive h) fs.
Proof.
  intros Hf. rewrite List.filter_app. simpl. unfold alive at 2.
  rewrite Hf. simpl. by rewrite app_nil_r.
Qed.

Lemma expired_not_kept h fs f :
  is_expired h f = true -> ~ In f (List.filter (alive h) fs).
Proof.
  intros Hf [_ Ha]%filter_In. unfold alive in Ha. by rewrite Hf in Ha.
Qed.

Lemma expired_not_called h (params : TArgs) fs f :
  is_expired h f = true ->
  ~ In (EvCall f params) (List.map (walk_event h params) fs).
Proof.
  intros Hf [g [Hg _]]%in_map_iff. unfold walk_event in Hg.
  destruct (is_expired h g) eqn:Hexp; [done|].
  injection Hg as ->. congruence.
Qed.

Lemma expired_erased h (params : TArgs) fs f :
  In f fs -> is_expired h f = true ->
  In (EvErase f) (List.map (walk_event h params) fs).
Proof.
  intros Hin Hf. apply in_map_iff. exists f. split; [|done].
  unfold walk_event. by rewrite Hf.
Qed.

Lemma filter_alive_shorter h fs f :
  In f fs -> is_expired h f = true ->
  length (List.filter (alive h) fs) < length fs.
Proof.
  intros Hin Hf. induction fs as [|g fs IH]; [done|]. simpl.
  pose proof (List.filter_length_le (alive h) fs) as Hle.
  destruct Hin as [->|Hin].
  - unfold alive at 1. rewrite Hf. simpl. lia.
  - specialize (IH Hin). destruct (alive h g); simpl; lia.
Qed.

Lemma filter_sublist (keep : FunctionPair type_info TReturnType TArgs -> bool) fs :
  sublist (List.filter keep fs) fs.
Proof.
  induction fs as [|f fs IH]; cbn [List.filter]; [constructor|].
  destruct (keep f); by constructor.
Qed.

End Walk.

(** ** The properties of the specification, C1 to C10 *)

(** C1 (as the code has it): [invoke] of a value-returning delegate has
    no result, for any registry and any arguments: line 64 applies the
    unary operator * to [it->function], a std::function, so the member
    function has no instantiation and no entry is walked, erased or
    called.  The delegate over int(int) to which x -> x+1 and then
    x -> x*2 were added without observers holds both entries, and
    invoke(3) returns nothing on it, where [4; 6] is due. *)
Theorem invoke_has_no_instantiation {type_info TReturnType TArgs}
    (h : heap) (del : delegate type_info TReturnType TArgs) (params : TArgs) :
  invoke h del params = None
  /\ forall (ty1 ty2 : type_info),
      let '(h1, del1) :=
        add h (Delegate []) (Function ty1 (fun x : Z => x + 1)%Z) [] in
      let '(h2, del2) :=
        add h1 del1 (Function ty2 (fun x : Z => x * 2)%Z) [] in
      functions del2 =
        [MkFunctionPair (Function ty1 (fun x : Z => x + 1)%Z) [];
         MkFunctionPair (Function ty2 (fun x : Z => x * 2)%Z) []]
      /\ invoke h2 del2 3%Z = None.
Proof.
  split.
  - unfold invoke, line_64. reflexivity.
  - intros ty1 ty2. cbn. split; reflexivity.
Qed.

(** C2, as stated, fails for [add]: an observer is constructed, a
    callable is added with it, the observer is destroyed, and a second
    callable is added; the registry then holds both entries, the first
    one expired and still in place. *)
Lemma add_leaves_expired_entry :
  let '(o, h1) := observer_ctor [] in
  let '(h2, del1) :=
    add h1 (Delegate []) (Function 1 (fun x : Z => x + 1)%Z) [o] in
  match observer_dtor o h2 with
  | Some h3 =>
      let '(h4, del2) := add h3 del1 (Function 2 (fun x : Z => x * 2)%Z) [] in
      functions del2 =
        [MkFunctionPair (Function 1 (fun x : Z => x + 1)%Z) [valid o];
         MkFunctionPair (Function 2 (fun x : Z => x * 2)%Z) []]
      /\ is_expired h4
           (MkFunctionPair (Function 1 (fun x : Z => x + 1)%Z) [valid o]) = true
  | None => False
  end.
Proof. cbn. split; reflexivity. Qed.

(** C2 (amended): when the last owner of a token is destroyed, every
    entry that references the token is expired from then on, whatever
    the program does next; the next invocation that walks the registry,
    the void strategy's, erases each such entry without calling it and
    keeps exactly the entries that are not expired, so the registry is
    shorter afterwards.  [add] erases nothing: it only appends its
    entry. *)
Theorem destroyed_observer_entry_evicted {type_info TReturnType TArgs}
    (h : heap) (o : observer) (b : bool)
    (Hsole : token_state h (valid o) = Some (b, 1)) :
  exists h',
    observer_dtor o h = Some h'
    /\ forall h'', heap_steps h' h'' ->
       (forall (vdel : delegate type_info unit TArgs) f params,
          In f (functions vdel) -> In (valid o) (observers f) ->
          is_expired h'' f = true
          /\ (Invoke h'' vdel params).1.2 =
               Delegate (List.filter (alive h'') (functions vdel))
          /\ ~ In f (functions (Invoke h'' vdel params).1.2)
          /\ length (functions (Invoke h'' vdel params).1.2)
               < length (functions vdel)
          /\ In (EvErase f) (Invoke h'' vdel params).2
          /\ ~ In (EvCall f params) (Invoke h'' vdel params).2)
       /\ (forall (del : delegate type_info TReturnType TArgs) f,
            In f (functions del) -> In (valid o) (observers f) ->
            is_expired h'' f = true)
       /\ (forall (del : delegate type_info TReturnType TArgs) func args,
            functions (add h'' del func args).2 =
              functions del ++ [MkFunctionPair func (List.map valid args)]).
Proof.
  destruct (observer_dtor_owner _ _ _ _ Hsole) as [Hd Hts].
  pose proof (expired_of_token_state _ _ _ _ Hts) as Hgone0. simpl in Hgone0.
  exists (shared_release (valid o) h). split; [exact Hd|].
  intros h'' Hsteps.
  assert (expired h'' (valid o) = true) as Hgone.
  { eapply heap_steps_expired; [exact Hsteps| |exact Hgone0].
    unfold allocated, token_state in *.
    destruct (shared_release (valid o) h !! valid o) eqn:Hcb; [|done].
    by eapply lookup_lt_Some. }
  split; [|split].
  - intros vdel f params Hin Hobs.
    pose proof (is_expired_of_token _ f _ Hobs Hgone) as Hexp.
    rewrite Invoke_spec. cbn [fst snd functions].
    split; [done|]. split; [done|].
    split; [by apply expired_not_kept|].
    split; [by apply filter_alive_shorter with f|]. split.
    + right. apply in_or_app. left. by apply expired_erased.
    + intros [Hev|Hev]; [done|]. apply in_app_or in Hev as [Hev|Hev].
      * by apply expired_not_called in Hev.
      * by destruct Hev as [|[]].
  - intros del f _ Hobs. exact (is_expired_of_token _ f _ Hobs Hgone).
  - intros del func args. apply add_functions.
Qed.

Lemma destroyed_observer_entry_evicted_witness :
  exists h',
    observer_dtor (Observer 0) [ControlBlock true 1 1] = Some h'
    /\ (Invoke h'
          (Delegate [MkFunctionPair (Function 1 (fun x : Z => tt)) [0]])
          3%Z).1.2 = Delegate [].
Proof.
  destruct (destroyed_observer_entry_evicted (type_info := nat)
    (TReturnType := Z) (TArgs := Z) [ControlBlock true 1 1] (Observer 0)
    true eq_refl) as (h' & Hd & Hnext).
  exists h'. split; [exact Hd|].
  destruct (Hnext h' (steps_refl h')) as (Hinv & _).
  destruct (Hinv
    (Delegate [MkFunctionPair (Function 1 (fun x : Z => tt)) [0]])
    (MkFunctionPair (Function 1 (fun x : Z => tt)) [0]) 3%Z
    (or_introl eq_refl) (or_introl eq_refl)) as (Hexp & -> & _).
  cbn [functions List.filter]. unfold alive. by rewrite Hexp.
Defined.

(** C3, as stated, fails: an observer is constructed and copied; after
    the original is destroyed a weak reference to its token is not
    expired, because the copy still owns the token. *)
Lemma observer_copy_keeps_token_alive :
  let '(o, h1) := observer_ctor [] in
  exists o' h2 h3,
    observer_copy o h1 = Some (o', h2)
    /\ observer_dtor o h2 = Some h3
    /\ expired h3 (valid o) = false.
Proof. simpl. eexists _, _, _. repeat split. Qed.

(** C3 (amended): constructing an observer mints a token at an address
    that was not in use, valid, owned once, and touches no other token;
    destroying an owner of the token takes one from its owners, so that
    when the observer is the only owner left every weak reference to the
    token is expired afterwards; and an expired token stays expired
    through every later step of the program. *)
Theorem observer_token_lifecycle (h : heap) :
  let '(o, h1) := observer_ctor h in
  (~ allocated h (valid o)
   /\ allocated h1 (valid o)
   /\ token_state h1 (valid o) = Some (true, 1)
   /\ expired h1 (valid o) = false
   /\ forall q, allocated h q -> token_state h1 q = token_state h q)
  /\ (forall h2 b n,
        token_state h2 (valid o) = Some (b, S n) ->
        exists h3,
          observer_dtor o h2 = Some h3
          /\ token_state h3 (valid o) = Some (b, n)
          /\ expired h3 (valid o) = Nat.eqb n 0)
  /\ (forall h3 h4,
        allocated h3 (valid o) -> expired h3 (valid o) = true ->
        heap_steps h3 h4 -> expired h4 (valid o) = true).
Proof.
  simpl. split; [|split].
  - unfold allocated, token_state, expired.
    rewrite length_app, list_lookup_middle by done. simpl.
    repeat split; try lia; try done.
    intros q Hq. by rewrite lookup_app_l.
  - intros h2 b n Hts.
    destruct (observer_dtor_owner h2 (Observer (length h)) b n Hts)
      as [Hd Hts'].
    eexists. split; [exact Hd|]. split; [exact Hts'|].
    by eapply expired_of_token_state.
  - intros h3 h4 Hal Hp Hsteps.
    by destruct (heap_steps_expired _ _ _ Hsteps Hal Hp).
Qed.

Lemma observer_token_lifecycle_witness :
  let '(o, h1) := observer_ctor [] in
  (exists h3, observer_dtor o h1 = Some h3 /\ expired h3 (valid o) = true)
  /\ expired (clear [ControlBlock true 0 0]
               (Delegate (type_info := nat) (TReturnType := Z) (TArgs := Z) [])).1
       (valid o) = true.
Proof.
  pose proof (observer_token_lifecycle []) as Hlife. simpl in Hlife.
  destruct Hlife as (_ & Hdtor & Hstay). split.
  - destruct (Hdtor [ControlBlock true 1 0] true 0 eq_refl) as (h3 & Hd & _ & He).
    exists h3. split; [exact Hd | exact He].
  - apply (Hstay [ControlBlock true 0 0]).
    + unfold allocated. simpl. lia.
    + reflexivity.
    + eapply steps_step; [|apply steps_refl].
      exact (step_clear _
        (Delegate (type_info := nat) (TReturnType := Z) (TArgs := Z) [])).
Defined.

(** C4: [is_expired] answers true exactly when at least one of the
    entry's weak token references is expired; an entry without token
    references is never expired. *)
Theorem is_expired_iff_some_token_expired {type_info TReturnType TArgs}
    (h : heap) (f : FunctionPair type_info TReturnType TArgs) :
  (is_expired h f = true <->
     exists p, In p (observers f) /\ expired h p = true)
  /\ (forall func : FunctionType type_info TReturnType TArgs,
        is_expired h (MkFunctionPair func []) = false).
Proof.
  split; [|done]. unfold is_expired. split.
  - apply any_expired_in.
  - intros [p [Hin Hp]]. by eapply in_any_expired.
Qed.

(** C5: [remove] erases every entry whose callable reports the same
    target type as the callable given, whatever the two callables do
    and whatever tokens the entry holds: the registry afterwards is the
    old one without the entries of equal type hash, and two different
    closures of the type of [c] are both erased by [remove(c)]. *)
Theorem remove_erases_same_type {type_info TReturnType TArgs}
    (hash_code : type_info -> N) (h : heap)
    (del : delegate type_info TReturnType TArgs)
    (c : FunctionType type_info TReturnType TArgs) :
  functions (remove hash_code h del c).2 =
    List.filter
      (fun f => negb (N.eqb (hash hash_code (function f)) (hash hash_code c)))
      (functions del)
  /\ (forall f, In f (functions del) ->
        target_type (function f) = target_type c ->
        ~ In f (functions (remove hash_code h del c).2))
  /\ (forall g1 g2 obs1 obs2,
        functions
          (remove hash_code h
             (Delegate [MkFunctionPair (Function (target_type c) g1) obs1;
                        MkFunctionPair (Function (target_type c) g2) obs2])
             c).2 = []).
Proof.
  split; [done|]. split.
  - intros f _ Hty [_ Hkeep]%filter_In.
    unfold hash in Hkeep. rewrite Hty, N.eqb_refl in Hkeep. done.
  - intros g1 g2 obs1 obs2. unfold remove, remove_if, hash. cbn.
    by rewrite N.eqb_refl.
Qed.

Lemma remove_erases_same_type_witness :
  ~ In (MkFunctionPair (Function 7 (fun x : Z => x + 1)%Z) [])
       (functions
          (remove N.of_nat []
             (Delegate [MkFunctionPair (Function 7 (fun x : Z => x + 1)%Z) [];
                        MkFunctionPair (Function 7 (fun x : Z => x * 2)%Z) []])
             (Function 7 (fun x : Z => x - 3)%Z)).2).
Proof.
  apply (remove_erases_same_type N.of_nat []
           (Delegate [MkFunctionPair (Function 7 (fun x : Z => x + 1)%Z) [];
                      MkFunctionPair (Function 7 (fun x : Z => x * 2)%Z) []])
           (Function 7 (fun x : Z => x - 3)%Z)).
  - simpl. by left.
  - reflexivity.
Defined.

(** C6 (as the code has it): the assignment never writes the member, so
    [get] after assigning [v] returns what the wrapper held before; the
    delegate is still invoked once, with [v].  A wrapper holding 0 still
    holds 0 after 5 was assigned. *)
Theorem assign_leaves_member_unwritten {type_info T}
    (h : heap) (self : delegate_value type_info T) (v : T) :
  get (assign h self v).1.2 = get self
  /\ (assign h self v).2 = (Invoke h (base self) v).2
  /\ forall del : delegate type_info unit Z,
      get (assign h (DelegateValue del 0%Z) 5%Z).1.2 = 0%Z.
Proof.
  assert (forall U (s : delegate_value type_info U) u,
    get (assign h s u).1.2 = get s /\ (assign h s u).2 = (Invoke h (base s) u).2)
    as Hassign.
  { intros U s u. unfold assign, write_value, read_value. simpl.
    by destruct (Invoke h (base s) u) as [[h' del'] tr]. }
  destruct (Hassign T self v) as [Hget Htr].
  split; [done|]. split; [done|].
  intros del. by destruct (Hassign Z (DelegateValue del 0%Z) 5%Z) as [-> _].
Qed.

(** C7: on a void delegate whose entry sequence is empty [Invoke] takes
    the lock and returns at once: no callable is called, nothing is
    erased, the heap and the delegate are as before. *)
Theorem Invoke_empty_registry {type_info TArgs} (h : heap)
    (del : delegate type_info unit TArgs) (params : TArgs)
    (Hempty : functions del = []) :
  Invoke h del params = (h, del, [EvLock; EvUnlock])
  /\ (forall f, ~ In (EvCall f params) (Invoke h del params).2)
  /\ (forall f, ~ In (EvErase f) (Invoke h del params).2).
Proof.
  assert (Invoke h del params = (h, del, [EvLock; EvUnlock])) as ->.
  { unfold Invoke. by rewrite Hempty. }
  split; [done|]. split; intros f [Hev|[Hev|[]]]; discriminate Hev.
Qed.

Lemma Invoke_empty_registry_witness :
  Invoke [ControlBlock true 0 1]
    (Delegate (type_info := nat) (TArgs := Z) []) 3%Z
  = ([ControlBlock true 0 1], Delegate [], [EvLock; EvUnlock]).
Proof.
  apply (Invoke_empty_registry [ControlBlock true 0 1] (Delegate []) 3%Z).
  reflexivity.
Defined.

(** C8 (as the code has it): [add] given a destroyed observer, one
    whose token was minted and has no owner left, still appends the
    entry, with a weak reference to that token; the entry is expired
    from the start and stays so whatever the program does next, and the
    void strategy, whenever it next walks a registry that holds the
    entry, erases it without calling its callable.  The value strategy
    does not: [invoke] has no instantiation (line 64), so on a
    value-returning delegate the entry is neither called nor erased. *)
Theorem add_with_dead_observer {type_info TReturnType TArgs}
    (h : heap) (del : delegate type_info TReturnType TArgs)
    (func : FunctionType type_info TReturnType TArgs)
    (args : list observer) (o : observer) (params : TArgs)
    (Harg : In o args)
    (Hminted : allocated h (valid o))
    (Hdead : expired h (valid o) = true) :
  let f := MkFunctionPair func (List.map valid args) in
  functions (add h del func args).2 = functions del ++ [f]
  /\ (forall h2, heap_steps (add h del func args).1 h2 ->
        is_expired h2 f = true)
  /\ invoke (add h del func args).1 (add h del func args).2 params = None
  /\ forall (vdel vdel2 : delegate type_info unit TArgs) vfunc h2,
      let vf := MkFunctionPair vfunc (List.map valid args) in
      functions (add h vdel vfunc args).2 = functions vdel ++ [vf]
      /\ (heap_steps (add h vdel vfunc args).1 h2 ->
          In vf (functions vdel2) ->
          In (EvErase vf) (Invoke h2 vdel2 params).2
          /\ ~ In (EvCall vf params) (Invoke h2 vdel2 params).2
          /\ ~ In vf (functions (Invoke h2 vdel2 params).1.2)).
Proof.
  assert (forall R (d : delegate type_info R TArgs) fn h2,
    heap_steps (add h d fn args).1 h2 ->
    is_expired h2 (MkFunctionPair fn (List.map valid args)) = true) as Hexp.
  { intros R d fn h2 Hsteps.
    apply (is_expired_of_token _ _ (valid o)); [simpl; by apply in_map|].
    eapply heap_steps_expired; [exact Hsteps| |].
    - unfold allocated in *.
      by rewrite (proj1 (add_keeps_tokens h d fn args)).
    - by rewrite (keeps_tokens_expired _ _ _ (add_keeps_tokens _ _ _ _)). }
  cbn zeta.
  split; [apply add_functions|]. split; [apply Hexp|].
  split; [reflexivity|].
  intros vdel vdel2 vfunc h2. split; [apply add_functions|].
  intros Hsteps Hin. specialize (Hexp unit vdel vfunc h2 Hsteps).
  rewrite Invoke_spec. cbn [fst snd functions].
  split; [|split].
  - right. apply in_or_app. left. by apply expired_erased.
  - intros [Hev|Hev]; [done|]. apply in_app_or in Hev as [Hev|Hev].
    + by apply expired_not_called in Hev.
    + by destruct Hev as [|[]].
  - by apply expired_not_kept.
Qed.

Lemma add_with_dead_observer_witness :
  invoke
    (add [ControlBlock true 0 0]
       (Delegate [MkFunctionPair (Function 1 (fun x : Z => x + 1)%Z) []])
       (Function 2 (fun x : Z => x * 2)%Z) [Observer 0]).1
    (add [ControlBlock true 0 0]
       (Delegate [MkFunctionPair (Function 1 (fun x : Z => x + 1)%Z) []])
       (Function 2 (fun x : Z => x * 2)%Z) [Observer 0]).2
    3%Z = None.
Proof.
  apply (add_with_dead_observer [ControlBlock true 0 0]
    (Delegate [MkFunctionPair (Function 1 (fun x : Z => x + 1)%Z) []])
    (Function 2 (fun x : Z => x * 2)%Z) [Observer 0] (Observer 0) 3%Z).
  - by left.
  - unfold allocated. simpl. lia.
  - reflexivity.
Defined.

(** C9, as stated, fails where hash_code does not tell two types
    apart: with a hash_code that gives every type the same code, the
    entry of type 1 is erased by [remove] of a callable of type 2. *)
Lemma remove_erases_colliding_type :
  (1 <> 2)
  /\ functions
       (remove (fun _ : nat => 0%N) []
          (Delegate [MkFunctionPair (Function 1 (fun x : Z => x + 1)%Z) []])
          (Function 2 (fun x : Z => x)%Z)).2 = [].
Proof. split; [lia | reflexivity]. Qed.

(** C9 (amended): [remove(c)] keeps exactly the entries whose callable's
    type hash code differs from that of [c], each as it was (same
    callable, same token list) and in the order they had, and leaves
    every token as it was; an entry of another type with the hash code
    of [c] is erased with the rest.  Where hash_code tells the type of
    [c] apart from the other types registered, the entries kept are
    exactly those whose type differs from that of [c]. *)
Theorem remove_keeps_other_hashes {type_info TReturnType TArgs}
    `{EqDecision type_info}
    (hash_code : type_info -> N) (h : heap)
    (del : delegate type_info TReturnType TArgs)
    (c : FunctionType type_info TReturnType TArgs) :
  functions (remove hash_code h del c).2 =
    List.filter
      (fun f => negb (N.eqb (hash_code (target_type (function f)))
                        (hash_code (target_type c))))
      (functions del)
  /\ (forall f, In f (functions del) ->
        hash_code (target_type (function f)) <> hash_code (target_type c) ->
        In f (functions (remove hash_code h del c).2))
  /\ (forall f, In f (functions del) ->
        hash_code (target_type (function f)) = hash_code (target_type c) ->
        ~ In f (functions (remove hash_code h del c).2))
  /\ sublist (functions (remove hash_code h del c).2) (functions del)
  /\ keeps_tokens h (remove hash_code h del c).1
  /\ ((forall f, In f (functions del) ->
         hash_code (target_type (function f)) = hash_code (target_type c) ->
         target_type (function f) = target_type c) ->
      functions (remove hash_code h del c).2 =
        List.filter
          (fun f =>
             negb (bool_decide (target_type (function f) = target_type c)))
          (functions del)).
Proof.
  split; [done|]. split; [|split; [|split; [|split]]].
  - intros f Hin Hne. apply filter_In. split; [done|].
    unfold hash. by rewrite (proj2 (N.eqb_neq _ _) Hne).
  - intros f _ Heq [_ Hkeep]%filter_In.
    unfold hash in Hkeep. by rewrite Heq, N.eqb_refl in Hkeep.
  - apply filter_sublist.
  - apply remove_keeps_tokens.
  - intros Hdistinct.
    unfold remove, remove_if, hash. cbn. apply List.filter_ext_in.
    intros f Hin. f_equal.
    destruct (N.eqb_spec (hash_code (target_type (function f)))
                (hash_code (target_type c))) as [Heq|Hne].
    + apply (Hdistinct f Hin) in Heq. by rewrite bool_decide_eq_true_2.
    + rewrite bool_decide_eq_false_2; [done|].
      intros Heq. by rewrite Heq in Hne.
Qed.

Lemma remove_keeps_other_hashes_witness :
  functions
    (remove N.of_nat [ControlBlock true 1 1]
       (Delegate [MkFunctionPair (Function 1 (fun x : Z => x + 1)%Z) [0];
                  MkFunctionPair (Function 2 (fun x : Z => x * 2)%Z) [];
                  MkFunctionPair (Function 3 (fun x : Z => x - 3)%Z) []])
       (Function 2 (fun x : Z => x)%Z)).2
  = [MkFunctionPair (Function 1 (fun x : Z => x + 1)%Z) [0];
     MkFunctionPair (Function 3 (fun x : Z => x - 3)%Z) []].
Proof.
  destruct (remove_keeps_other_hashes N.of_nat [ControlBlock true 1 1]
    (Delegate [MkFunctionPair (Function 1 (fun x : Z => x + 1)%Z) [0];
               MkFunctionPair (Function 2 (fun x : Z => x * 2)%Z) [];
               MkFunctionPair (Function 3 (fun x : Z => x - 3)%Z) []])
    (Function 2 (fun x : Z => x)%Z)) as (_ & _ & _ & _ & _ & Htypes).
  rewrite Htypes; [reflexivity|].
  intros f _ Hhash. apply Nat2N.inj, Hhash.
Defined.

(** C10: add, remove, clear and both invocation strategies (the value
    strategy under whatever line 64 may mean) mint no token and leave
    the bool and the owner count of every token as they were; in a step
    of a program a token goes from valid to expired only by the
    destructor of the one observer that still owned it. *)
Theorem delegate_operations_keep_tokens {type_info TReturnType TArgs}
    (hash_code : type_info -> N) (h : heap)
    (del : delegate type_info TReturnType TArgs)
    (vdel : delegate type_info unit TArgs)
    (func : FunctionType type_info TReturnType TArgs)
    (args : list observer) (params : TArgs) :
  keeps_tokens h (add h del func args).1
  /\ keeps_tokens h (remove hash_code h del func).1
  /\ keeps_tokens h (clear h del).1
  /\ (forall call, keeps_tokens h (invoke_body call h del params).1.1.1)
  /\ keeps_tokens h (Invoke h vdel params).1.1
  /\ forall h' p,
      heap_step h h' -> expired h p = false -> expired h' p = true ->
      exists o b, valid o = p /\ observer_dtor o h = Some h'
        /\ token_state h p = Some (b, 1).
Proof.
  split; [apply add_keeps_tokens|].
  split; [apply remove_keeps_tokens|].
  split; [apply clear_keeps_tokens|].
  split; [intros call; apply invoke_body_keeps_tokens|].
  split; [apply Invoke_keeps_tokens|].
  intros h' p. apply heap_step_dies.
Qed.

Lemma delegate_operations_keep_tokens_witness :
  exists o b, valid o = 0
    /\ observer_dtor o [ControlBlock true 1 1] = Some [ControlBlock true 0 1]
    /\ token_state [ControlBlock true 1 1] 0 = Some (b, 1).
Proof.
  pose proof (delegate_operations_keep_tokens (type_info := nat)
    (TReturnType := Z) (TArgs := Z) N.of_nat [ControlBlock true 1 1]
    (Delegate []) (Delegate []) (Function 0 (fun x => x)) [] 0%Z) as Hkeep.
  destruct Hkeep as (_ & _ & _ & _ & _ & Hdies).
  apply (Hdies [ControlBlock true 0 1] 0).
  - apply (step_observer_dtor _ (Observer 0)). reflexivity.
  - reflexivity.
  - reflexivity.
Defined.

(** * Further properties of the header *)

(** ** Walks over live entries *)

Section LiveWalk.
Context {type_info TReturnType TArgs : Type}.
Implicit Types (f g : FunctionPair type_info TReturnType TArgs).
Implicit Types (fs : list (FunctionPair type_info TReturnType TArgs)).

Lemma walk_of_live h (params : TArgs) fs :
  Forall (fun f => is_expired h f = false) fs ->
  List.filter (is_expired h) fs = []
  /\ List.filter (alive h) fs = fs
  /\ List.map (walk_event h params) fs =
       List.map (fun f => EvCall f params) fs.
Proof.
  induction 1 as [|f fs Hf _ (IH1 & IH2 & IH3)]; [done|].
  cbn [List.filter List.map]. unfold alive at 1, walk_event at 1.
  rewrite Hf. cbn [negb]. by rewrite IH1, IH2, IH3.
Qed.

Lemma kept_are_live h h' fs :
  (forall q, token_state h' q = token_state h q) ->
  Forall (fun f => is_expired h' f = false) (List.filter (alive h) fs).
Proof.
  intros Hq. apply List.Forall_forall. intros f [_ Ha]%filter_In.
  rewrite (is_expired_token_state h h' f Hq).
  unfold alive in Ha. by destruct (is_expired h f).
Qed.

Lemma live_kept h fs f :
  In f fs -> is_expired h f = false -> In f (List.filter (alive h) fs).
Proof. intros Hin Hf. apply filter_In. unfold alive. by rewrite Hf. Qed.

Lemma live_called h (params : TArgs) fs f :
  In f fs -> is_expired h f = false ->
  In (EvCall f params) (List.map (walk_event h params) fs).
Proof.
  intros Hin Hf. apply in_map_iff. exists f. split; [|done].
  unfold walk_event. by rewrite Hf.
Qed.

Lemma live_not_erased h (params : TArgs) fs f :
  is_expired h f = false ->
  ~ In (EvErase f) (List.map (walk_event h params) fs).
Proof.
  intros Hf [g [Hg _]]%in_map_iff. unfold walk_event in Hg.
  destruct (is_expired h g) eqn:Hexp; [|done].
  injection Hg as ->. congruence.
Qed.

End LiveWalk.

(** ** The invocation strategies *)

(** X1: the void strategy, for every registry: [Invoke] takes the lock,
    makes one event of each entry in registration order (an erasure for
    an expired entry, a call with the arguments for any other), releases
    the lock, destroys the erased entries and leaves the others in the
    registry in their order. *)
Theorem Invoke_walks_in_registration_order {type_info TArgs}
    (h : heap) (del : delegate type_info unit TArgs) (params : TArgs) :
  Invoke h del params =
    (destroy_pairs (List.filter (is_expired h) (functions del)) h,
     Delegate (List.filter (alive h) (functions del)),
     EvLock :: List.map (walk_event h params) (functions del) ++ [EvUnlock]).
Proof. apply Invoke_spec. Qed.

(** X3: a walk of the void strategy leaves no expired entry behind:
    invoking again at once erases nothing, calls every entry of the
    registry in order and leaves heap and registry as the first walk
    left them. *)
Theorem Invoke_again_erases_nothing {type_info TArgs}
    (h : heap) (del : delegate type_info unit TArgs) (params : TArgs) :
  let h1 := (Invoke h del params).1.1 in
  let del1 := (Invoke h del params).1.2 in
  Invoke h1 del1 params =
    (h1, del1,
     EvLock :: List.map (fun f => EvCall f params) (functions del1)
       ++ [EvUnlock]).
Proof.
  cbn zeta. rewrite (Invoke_spec h). cbn [fst snd]. rewrite Invoke_spec.
  cbn [functions].
  destruct (walk_of_live
    (destroy_pairs (List.filter (is_expired h) (functions del)) h) params
    (List.filter (alive h) (functions del))) as (-> & -> & ->); [|done].
  apply kept_are_live. intros q. apply token_state_destroy_pairs.
Qed.

(** X4: the void strategy never erases an entry that is not expired:
    the entry stays in the registry, it is called with the arguments,
    and the entries left are in the order they had. *)
Theorem Invoke_keeps_live_entries {type_info TArgs}
    (h : heap) (del : delegate type_info unit TArgs) (params : TArgs)
    (f : FunctionPair type_info unit TArgs)
    (Hin : In f (functions del)) (Hlive : is_expired h f = false) :
  In f (functions (Invoke h del params).1.2)
  /\ In (EvCall f params) (Invoke h del params).2
  /\ ~ In (EvErase f) (Invoke h del params).2
  /\ sublist (functions (Invoke h del params).1.2) (functions del).
Proof.
  rewrite Invoke_spec. cbn [fst snd functions].
  split; [by apply live_kept|]. split.
  { right. apply in_or_app. left. by apply live_called. }
  split; [|apply filter_sublist].
  intros [Hev|Hev]; [done|]. apply in_app_or in Hev as [Hev|Hev].
  - by apply live_not_erased in Hev.
  - by destruct Hev as [|[]].
Qed.

Lemma Invoke_keeps_live_entries_witness :
  In (MkFunctionPair (Function 2 (fun x : Z => tt)) [])
    (functions
       (Invoke [ControlBlock true 0 1]
          (Delegate [MkFunctionPair (Function 1 (fun x : Z => tt)) [0];
                     MkFunctionPair (Function 2 (fun x : Z => tt)) []])
          3%Z).1.2).
Proof.
  apply (Invoke_keeps_live_entries [ControlBlock true 0 1]
    (Delegate [MkFunctionPair (Function 1 (fun x : Z => tt)) [0];
               MkFunctionPair (Function 2 (fun x : Z => tt)) []])
    3%Z (MkFunctionPair (Function 2 (fun x : Z => tt)) [])).
  - simpl. right. by left.
  - reflexivity.
Defined.

(** ** Counting the weak references *)

Lemma weak_refs_weak_acquire h p q :
  allocated h q ->
  weak_refs (weak_acquire p h) q =
    weak_refs h q + (if decide (p = q) then 1 else 0).
Proof.
  intros Hq. unfold weak_refs, weak_acquire. rewrite list_lookup_alter.
  destruct (decide (p = q)) as [->|]; [|lia].
  destruct (h !! q) as [cb|] eqn:Hcb; simpl; [lia|].
  apply lookup_ge_None in Hcb. unfold allocated in Hq. lia.
Qed.

Lemma weak_refs_weak_release h p q :
  weak_refs (weak_release p h) q =
    weak_refs h q - (if decide (p = q) then 1 else 0).
Proof.
  unfold weak_refs, weak_release. rewrite list_lookup_alter.
  destruct (decide (p = q)) as [->|]; [|lia].
  destruct (h !! q) as [cb|]; simpl; lia.
Qed.

Lemma refs_in_cons p ps q :
  refs_in (p :: ps) q = (if decide (p = q) then 1 else 0) + refs_in ps q.
Proof.
  unfold refs_in. simpl.
  destruct (Nat.eq_dec p q), (decide (p = q)); done.
Qed.

Lemma refs_in_app ps1 ps2 q :
  refs_in (ps1 ++ ps2) q = refs_in ps1 q + refs_in ps2 q.
Proof. unfold refs_in. apply count_occ_app. Qed.

Lemma weak_refs_foldr_acquire ps h q :
  allocated h q ->
  weak_refs (foldr weak_acquire h ps) q = weak_refs h q + refs_in ps q.
Proof.
  intros Hq. induction ps as [|p ps IH]; cbn [foldr];
    [unfold refs_in; simpl; lia|].
  rewrite weak_refs_weak_acquire, IH, refs_in_cons; [lia|].
  unfold allocated.
  by rewrite (length_foldr_alter _ _ _ length_weak_acquire).
Qed.

Lemma weak_refs_foldr_release ps h q :
  weak_refs (foldr weak_release h ps) q = weak_refs h q - refs_in ps q.
Proof.
  induction ps as [|p ps IH]; cbn [foldr]; [unfold refs_in; simpl; lia|].
  rewrite weak_refs_weak_release, IH, refs_in_cons. lia.
Qed.

Lemma weak_refs_collect_observers h (observers : ObserversType) args q :
  allocated h q ->
  weak_refs (collect_observers h observers args).1 q =
    weak_refs h q + refs_in (List.map valid args) q.
Proof.
  revert h observers. induction args as [|arg args IH]; intros h observers Hq.
  - simpl. unfold refs_in. simpl. lia.
  - cbn [collect_observers List.map].
    rewrite IH, weak_refs_weak_acquire, refs_in_cons by
      (try done; unfold allocated; by rewrite length_weak_acquire).
    lia.
Qed.

(* Two heaps with the same tokens and the same weak counts are equal. *)
Lemma heap_ext (h1 h2 : heap) :
  (forall q, token_state h1 q = token_state h2 q) ->
  (forall q, weak_refs h1 q = weak_refs h2 q) ->
  h1 = h2.
Proof.
  intros Hts Hw. apply list_eq. intros q.
  specialize (Hts q). specialize (Hw q). unfold token_state, weak_refs in *.
  destruct (h1 !! q) as [[b1 u1 w1]|], (h2 !! q) as [[b2 u2 w2]|];
    simpl in *; congruence.
Qed.

Section Accounting.
Context {type_info TReturnType TArgs : Type}.
Implicit Types (f g : FunctionPair type_info TReturnType TArgs).
Implicit Types (fs : list (FunctionPair type_info TReturnType TArgs)).
Implicit Types (del : delegate type_info TReturnType TArgs).

Lemma weak_refs_destroy_pairs fs h q :
  weak_refs (destroy_pairs fs h) q = weak_refs h q - registry_refs fs q.
Proof.
  revert h. induction fs as [|f fs IH]; intros h;
    cbn [destroy_pairs registry_refs]; [lia|].
  rewrite IH. unfold destroy_pair. rewrite weak_refs_foldr_release. lia.
Qed.

Lemma registry_refs_app fs1 fs2 q :
  registry_refs (fs1 ++ fs2) q = registry_refs fs1 q + registry_refs fs2 q.
Proof. induction fs1 as [|f fs1 IH]; simpl; lia. Qed.

Lemma registry_refs_split (gone : FunctionPair type_info TReturnType TArgs -> bool)
    fs q :
  registry_refs (List.filter gone fs) q
  + registry_refs (List.filter (fun f => negb (gone f)) fs) q
  = registry_refs fs q.
Proof.
  induction fs as [|f fs IH]; simpl; [done|].
  destruct (gone f); simpl; lia.
Qed.

Lemma weak_refs_add h del func args q :
  allocated h q ->
  weak_refs (add h del func args).1 q =
    weak_refs h q + refs_in (List.map valid args) q.
Proof.
  intros Hq. unfold add.
  pose proof (collect_observers_spec h [] args) as [Hobs _].
  pose proof (weak_refs_collect_observers h [] args q Hq) as Hw.
  pose proof (length_collect_observers h [] args) as Hlen.
  destruct (collect_observers h [] args) as [h1 observers].
  simpl in *. subst observers.
  rewrite weak_refs_foldr_release, weak_refs_foldr_acquire, Hw; [lia|].
  unfold allocated in *. by rewrite Hlen.
Qed.

Lemma weak_refs_unallocated h q : ~ allocated h q -> weak_refs h q = 0.
Proof.
  intros Hq. unfold weak_refs, allocated in *.
  rewrite (proj2 (lookup_ge_None h q)); [done|lia].
Qed.

End Accounting.

Lemma walk_of_dead {type_info TReturnType TArgs} h (params : TArgs)
    (fs : list (FunctionPair type_info TReturnType TArgs)) :
  Forall (fun f => is_expired h f = true) fs ->
  List.filter (is_expired h) fs = fs
  /\ List.filter (alive h) fs = []
  /\ List.map (walk_event h params) fs = List.map EvErase fs.
Proof.
  induction 1 as [|f fs Hf _ (IH1 & IH2 & IH3)]; [done|].
  cbn [List.filter List.map]. unfold alive at 1, walk_event at 1.
  rewrite Hf. cbn [negb]. by rewrite IH1, IH2, IH3.
Qed.

(** X16: when every entry is expired the void strategy erases every
    entry in registration order, calls none, and leaves the registry
    empty. *)
Theorem Invoke_all_expired {type_info TArgs}
    (h : heap) (del : delegate type_info unit TArgs) (params : TArgs)
    (Hall : Forall (fun f => is_expired h f = true) (functions del)) :
  Invoke h del params =
    (destroy_pairs (functions del) h, Delegate [],
     EvLock :: List.map EvErase (functions del) ++ [EvUnlock]).
Proof.
  rewrite Invoke_spec.
  destruct (walk_of_dead h params (functions del) Hall) as (-> & -> & ->).
  done.
Qed.

Lemma Invoke_all_expired_witness :
  (Invoke [ControlBlock true 0 2]
     (Delegate [MkFunctionPair (Function 1 (fun x : Z => tt)) [0];
                MkFunctionPair (Function 2 (fun x : Z => tt)) [0]])
     3%Z).1.2 = Delegate [].
Proof.
  rewrite (Invoke_all_expired [ControlBlock true 0 2]
    (Delegate [MkFunctionPair (Function 1 (fun x : Z => tt)) [0];
               MkFunctionPair (Function 2 (fun x : Z => tt)) [0]])
    3%Z); [reflexivity|].
  repeat constructor.
Defined.

(** ** add, remove and clear together with the walk *)

Section Composition.
Context {type_info TReturnType TArgs : Type}.
Implicit Types (f g : FunctionPair type_info TReturnType TArgs).
Implicit Types (fs : list (FunctionPair type_info TReturnType TArgs)).
Implicit Types (del : delegate type_info TReturnType TArgs).

Lemma add_all_spec h del (funcs : list (FunctionType type_info TReturnType TArgs)) :
  add_all h del funcs =
    (h, Delegate (functions del
                    ++ List.map (fun func => MkFunctionPair func []) funcs)).
Proof.
  revert del. induction funcs as [|func funcs IH]; intros del.
  - simpl. rewrite app_nil_r. by destruct del.
  - cbn. rewrite IH. cbn [functions List.map]. by rewrite <- app_assoc.
Qed.

Lemma no_observers_live h (funcs : list (FunctionType type_info TReturnType TArgs)) :
  Forall (fun f => is_expired h f = false)
    (List.map (fun func => MkFunctionPair func []) funcs).
Proof. induction funcs; by constructor. Qed.

Lemma remove_absent hash_code h del (c : FunctionType type_info TReturnType TArgs) :
  (forall f, In f (functions del) ->
     hash hash_code (function f) <> hash hash_code c) ->
  remove hash_code h del c = (h, del).
Proof.
  intros Habs. unfold remove, remove_if. destruct del as [fs]. cbn [functions] in *.
  assert (Forall (fun f =>
    N.eqb (hash hash_code (function f)) (hash hash_code c) = false) fs) as Hall.
  { apply List.Forall_forall. intros f Hin. by apply N.eqb_neq, Habs. }
  clear Habs. induction Hall as [|f fs Hf _ IH]; [done|].
  cbn [List.filter]. rewrite Hf. cbn [negb].
  injection IH as IHh IHfs. by rewrite IHh, IHfs.
Qed.

Lemma erase_accounted (gone : FunctionPair type_info TReturnType TArgs -> bool)
    h fs q :
  registry_refs fs q <= weak_refs h q ->
  registry_refs (List.filter (fun f => negb (gone f)) fs) q
    <= weak_refs (destroy_pairs (List.filter gone fs) h) q
  /\ weak_refs (destroy_pairs (List.filter gone fs) h) q
     - registry_refs (List.filter (fun f => negb (gone f)) fs) q
     = weak_refs h q - registry_refs fs q.
Proof.
  intros Hacc. rewrite weak_refs_destroy_pairs.
  pose proof (registry_refs_split gone fs q). lia.
Qed.

End Composition.

(** X5: what [add] contributes to the next walk of the void strategy.
    The new entry is expired exactly when one of the observers given
    is; the next [Invoke] makes the events it would have made without
    the [add], followed by one event of the new entry (its call, or its
    erasure when expired), and leaves the registry it would have left,
    followed by the new entry unless expired. *)
Theorem Invoke_after_add {type_info TArgs}
    (h : heap) (del : delegate type_info unit TArgs)
    (func : FunctionType type_info unit TArgs)
    (args : list observer) (params : TArgs) :
  let f := MkFunctionPair func (List.map valid args) in
  let h1 := (add h del func args).1 in
  let del1 := (add h del func args).2 in
  is_expired h1 f = any_expired h (List.map valid args)
  /\ (Invoke h1 del1 params).2 =
       EvLock :: List.map (walk_event h params) (functions del)
         ++ [if is_expired h f then EvErase f else EvCall f params; EvUnlock]
  /\ functions (Invoke h1 del1 params).1.2 =
       functions (Invoke h del params).1.2
         ++ (if is_expired h f then [] else [f]).
Proof.
  cbn zeta.
  assert (forall g : FunctionPair type_info unit TArgs,
    is_expired (add h del func args).1 g = is_expired h g) as Hsame.
  { intros g. apply is_expired_token_state. intros q. apply add_token_state. }
  split; [apply Hsame|].
  rewrite !Invoke_spec, add_functions. cbn [fst snd functions].
  assert (forall g : FunctionPair type_info unit TArgs,
    alive (add h del func args).1 g = alive h g) as Halive.
  { intros g. unfold alive. by rewrite Hsame. }
  assert (forall g : FunctionPair type_info unit TArgs,
    walk_event (add h del func args).1 params g = walk_event h params g)
    as Hwalk.
  { intros g. unfold walk_event. by rewrite Hsame. }
  rewrite (List.filter_ext _ _ Halive), (List.map_ext _ _ Hwalk).
  rewrite List.filter_app, List.map_app. cbn [List.filter List.map].
  unfold alive at 2, walk_event at 2. rewrite <- app_assoc. cbn [app].
  by destruct (is_expired h (MkFunctionPair func (List.map valid args))).
Qed.

(** X6: after any number of callables were added without observers,
    one after the other, the void strategy makes the events it made
    before, followed by one call of each added callable in the order
    they were added; on a delegate that was empty it calls exactly the
    added callables, each once and in that order, and changes neither
    heap nor registry. *)
Theorem Invoke_after_adds {type_info TArgs}
    (h : heap) (del : delegate type_info unit TArgs)
    (funcs : list (FunctionType type_info unit TArgs))
    (params : TArgs) :
  (Invoke (add_all h del funcs).1 (add_all h del funcs).2 params).2 =
    EvLock :: List.map (walk_event h params) (functions del)
      ++ List.map (fun func => EvCall (MkFunctionPair func []) params) funcs
      ++ [EvUnlock]
  /\ Invoke (add_all h (Delegate []) funcs).1
       (add_all h (Delegate []) funcs).2 params =
       (h, (add_all h (Delegate []) funcs).2,
        EvLock :: List.map (fun func => EvCall (MkFunctionPair func []) params)
                    funcs ++ [EvUnlock]).
Proof.
  rewrite !add_all_spec, !Invoke_spec. cbn [fst snd functions app].
  destruct (walk_of_live h params
    (List.map (fun func => MkFunctionPair func []) funcs)
    (no_observers_live h funcs)) as (Hexp & Hlive & Hwalk).
  split.
  - rewrite List.map_app, Hwalk, List.map_map, <- app_assoc. done.
  - rewrite Hexp, Hlive, Hwalk, !List.map_map. done.
Qed.

(** X7: [clear] empties the registry, destroys every weak reference the
    registry held and leaves every token as it was; on a cleared void
    delegate a walk calls nothing and erases nothing, whatever the
    heap. *)
Theorem clear_empties_registry {type_info TReturnType TArgs}
    (h : heap) (del : delegate type_info TReturnType TArgs) :
  functions (clear h del).2 = []
  /\ keeps_tokens h (clear h del).1
  /\ (forall q, weak_refs (clear h del).1 q =
         weak_refs h q - registry_refs (functions del) q)
  /\ (forall (vdel : delegate type_info unit TArgs) h' (params : TArgs),
        Invoke h' (clear h vdel).2 params =
          (h', Delegate [], [EvLock; EvUnlock])).
Proof.
  split; [done|]. split; [apply clear_keeps_tokens|]. split.
  - intros q. apply weak_refs_destroy_pairs.
  - intros vdel h' params. reflexivity.
Qed.

(** X8: [remove] of a callable whose type hash no entry has changes
    nothing: the heap and the delegate are returned as they were. *)
Theorem remove_absent_changes_nothing {type_info TReturnType TArgs}
    (hash_code : type_info -> N) (h : heap)
    (del : delegate type_info TReturnType TArgs)
    (c : FunctionType type_info TReturnType TArgs)
    (Habsent : forall f, In f (functions del) ->
       hash_code (target_type (function f)) <> hash_code (target_type c)) :
  remove hash_code h del c = (h, del).
Proof. by apply remove_absent. Qed.

Lemma remove_absent_changes_nothing_witness :
  remove N.of_nat [ControlBlock true 1 1]
    (Delegate [MkFunctionPair (Function 1 (fun x : Z => x + 1)%Z) [0]])
    (Function 2 (fun x : Z => x)%Z)
  = ([ControlBlock true 1 1],
     Delegate [MkFunctionPair (Function 1 (fun x : Z => x + 1)%Z) [0]]).
Proof.
  apply (remove_absent_changes_nothing N.of_nat [ControlBlock true 1 1]
    (Delegate [MkFunctionPair (Function 1 (fun x : Z => x + 1)%Z) [0]])
    (Function 2 (fun x : Z => x)%Z)).
  intros f [<-|[]]. simpl. lia.
Defined.

(** X9: after [remove(c)] no entry with the type hash of [c] is left, so
    removing [c] a second time changes nothing. *)
Theorem remove_twice {type_info TReturnType TArgs}
    (hash_code : type_info -> N) (h : heap)
    (del : delegate type_info TReturnType TArgs)
    (c : FunctionType type_info TReturnType TArgs) :
  (forall f, In f (functions (remove hash_code h del c).2) ->
     hash_code (target_type (function f)) <> hash_code (target_type c))
  /\ remove hash_code (remove hash_code h del c).1
       (remove hash_code h del c).2 c
     = remove hash_code h del c.
Proof.
  assert (forall f, In f (functions (remove hash_code h del c).2) ->
    hash hash_code (function f) <> hash hash_code c) as Hnone.
  { intros f [_ Hkeep]%filter_In. apply N.eqb_neq.
    by destruct (N.eqb (hash hash_code (function f)) (hash hash_code c)). }
  split; [exact Hnone|].
  rewrite (remove_absent hash_code _ _ c Hnone).
  by destruct (remove hash_code h del c).
Qed.

Lemma destroy_after_add {type_info TReturnType TArgs}
    (h : heap) (del : delegate type_info TReturnType TArgs)
    (func : FunctionType type_info TReturnType TArgs) (args : list observer)
    (gs : list (FunctionPair type_info TReturnType TArgs)) :
  destroy_pairs (gs ++ [MkFunctionPair func (List.map valid args)])
    (add h del func args).1
  = destroy_pairs gs h.
Proof.
  apply heap_ext; intros q.
  - by rewrite !token_state_destroy_pairs, add_token_state.
  - rewrite !weak_refs_destroy_pairs, registry_refs_app.
    cbn [registry_refs observers].
    destruct (decide (q < length h)) as [Hq|Hq].
    + rewrite weak_refs_add by done. lia.
    + rewrite (weak_refs_unallocated h q Hq), weak_refs_unallocated; [done|].
      unfold allocated. by rewrite (proj1 (add_keeps_tokens h del func args)).
Qed.

(** X10: [add] undone.  Removing a callable right after it was added
    gives the heap and the registry that [remove] would have given
    without the [add] (so the heap and the delegate as they were, when no
    other entry has its type hash), and [clear] after [add] gives what
    [clear] alone gives: the weak references [add] took are given back. *)
Theorem add_then_remove_round_trip {type_info TReturnType TArgs}
    (hash_code : type_info -> N) (h : heap)
    (del : delegate type_info TReturnType TArgs)
    (c : FunctionType type_info TReturnType TArgs) (args : list observer) :
  remove hash_code (add h del c args).1 (add h del c args).2 c =
    remove hash_code h del c
  /\ clear (add h del c args).1 (add h del c args).2 = clear h del
  /\ ((forall f, In f (functions del) ->
         hash_code (target_type (function f)) <> hash_code (target_type c)) ->
      remove hash_code (add h del c args).1 (add h del c args).2 c = (h, del)).
Proof.
  assert (remove hash_code (add h del c args).1 (add h del c args).2 c =
    remove hash_code h del c) as Hrem.
  { unfold remove, remove_if. rewrite add_functions, !List.filter_app.
    cbn [List.filter function]. rewrite N.eqb_refl. cbn [negb].
    by rewrite destroy_after_add, app_nil_r. }
  split; [exact Hrem|]. split.
  - unfold clear. by rewrite add_functions, destroy_after_add.
  - intros Habs. rewrite Hrem. by apply remove_absent.
Qed.

Lemma add_then_remove_round_trip_witness :
  remove N.of_nat
    (add [ControlBlock true 1 0]
       (Delegate [MkFunctionPair (Function 1 (fun x : Z => x + 1)%Z) []])
       (Function 2 (fun x : Z => x * 2)%Z) [Observer 0]).1
    (add [ControlBlock true 1 0]
       (Delegate [MkFunctionPair (Function 1 (fun x : Z => x + 1)%Z) []])
       (Function 2 (fun x : Z => x * 2)%Z) [Observer 0]).2
    (Function 2 (fun x : Z => x * 2)%Z)
  = ([ControlBlock true 1 0],
     Delegate [MkFunctionPair (Function 1 (fun x : Z => x + 1)%Z) []]).
Proof.
  apply (add_then_remove_round_trip N.of_nat [ControlBlock true 1 0]
    (Delegate [MkFunctionPair (Function 1 (fun x : Z => x + 1)%Z) []])
    (Function 2 (fun x : Z => x * 2)%Z) [Observer 0]).
  intros f [<-|[]]. simpl. lia.
Defined.

(** X11: the registry's weak references are counted.  When the heap
    counts every weak reference the registry holds, it still does after
    [add] (given observers that have a control block), [remove], [clear]
    and the walk of [invoke] (under whatever line 64 may mean), and the
    weak references held by others (the heap's count less the
    registry's) are as many as before. *)
Theorem registry_weak_refs_accounted {type_info TReturnType TArgs}
    (hash_code : type_info -> N) (h : heap)
    (del : delegate type_info TReturnType TArgs)
    (func : FunctionType type_info TReturnType TArgs)
    (args : list observer) (params : TArgs)
    (Hacc : accounted h del)
    (Hargs : Forall (fun o => allocated h (valid o)) args) :
  let others h' (del' : delegate type_info TReturnType TArgs) q :=
    weak_refs h' q - registry_refs (functions del') q in
  (accounted (add h del func args).1 (add h del func args).2
   /\ forall q, others (add h del func args).1 (add h del func args).2 q
                = others h del q)
  /\ (accounted (remove hash_code h del func).1 (remove hash_code h del func).2
      /\ forall q, others (remove hash_code h del func).1
                     (remove hash_code h del func).2 q = others h del q)
  /\ (accounted (clear h del).1 (clear h del).2
      /\ forall q, others (clear h del).1 (clear h del).2 q = others h del q)
  /\ (forall call,
        accounted (invoke_body call h del params).1.1.1
          (invoke_body call h del params).1.1.2
        /\ forall q, others (invoke_body call h del params).1.1.1
                       (invoke_body call h del params).1.1.2 q
                     = others h del q).
Proof.
  cbn zeta. unfold accounted in *.
  split; [|split; [|split]].
  - assert (forall q,
      registry_refs (functions (add h del func args).2) q
        <= weak_refs (add h del func args).1 q
      /\ weak_refs (add h del func args).1 q
           - registry_refs (functions (add h del func args).2) q
         = weak_refs h q - registry_refs (functions del) q) as Hadd.
    { intros q. specialize (Hacc q).
      rewrite add_functions, registry_refs_app. cbn [registry_refs observers].
      destruct (decide (q < length h)) as [Hq|Hq].
      - rewrite weak_refs_add by done. lia.
      - assert (refs_in (List.map valid args) q = 0) as ->.
        { unfold refs_in. apply count_occ_not_In. intros [o [<- Ho]]%in_map_iff.
          apply Hq. by apply (proj1 (List.Forall_forall _ _) Hargs). }
        rewrite (weak_refs_unallocated h q Hq) in *.
        rewrite weak_refs_unallocated; [lia|].
        unfold allocated. by rewrite (proj1 (add_keeps_tokens h del func args)). }
    split; intros q; apply Hadd.
  - split; intros q; by apply (erase_accounted _ h (functions del) q).
  - split; intros q; cbn [clear fst snd functions registry_refs];
      rewrite weak_refs_destroy_pairs; specialize (Hacc q); lia.
  - intros call. rewrite invoke_body_spec. cbn [fst snd functions].
    split; intros q; by apply (erase_accounted (is_expired h) h (functions del) q).
Qed.

Lemma registry_weak_refs_accounted_witness :
  accounted
    (remove N.of_nat [ControlBlock true 0 1]
       (Delegate [MkFunctionPair (Function 1 (fun x : Z => x + 1)%Z) [0]])
       (Function 1 (fun x : Z => x + 1)%Z)).1
    (remove N.of_nat [ControlBlock true 0 1]
       (Delegate [MkFunctionPair (Function 1 (fun x : Z => x + 1)%Z) [0]])
       (Function 1 (fun x : Z => x + 1)%Z)).2.
Proof.
  apply (registry_weak_refs_accounted N.of_nat [ControlBlock true 0 1]
    (Delegate [MkFunctionPair (Function 1 (fun x : Z => x + 1)%Z) [0]])
    (Function 1 (fun x : Z => x + 1)%Z) [] 3%Z).
  - intros [|q]; [vm_compute; lia|].
    unfold weak_refs, refs_in. simpl. destruct (Nat.eq_dec 0 (S q)); [lia|].
    simpl. lia.
  - constructor.
Defined.

(** ** Observers and entries over time *)

Lemma live_entry_tokens {type_info TReturnType TArgs} h
    (f : FunctionPair type_info TReturnType TArgs) p :
  is_expired h f = false -> In p (observers f) -> expired h p = false.
Proof.
  intros Hf Hin. destruct (expired h p) eqn:Hp; [|done].
  by rewrite (is_expired_of_token h f p Hin Hp) in Hf.
Qed.

(** X12: the life of an entry goes one way.  An entry that is expired
    through a token that was minted stays expired through every later
    step of the program; and in one step an entry goes from live to
    expired only by the destructor of an observer whose token the entry
    references. *)
Theorem entry_expiry_is_one_way {type_info TReturnType TArgs}
    (f : FunctionPair type_info TReturnType TArgs) (h h' : heap) :
  (heap_steps h h' ->
   (exists p, In p (observers f) /\ allocated h p /\ expired h p = true) ->
   is_expired h' f = true)
  /\ (heap_step h h' ->
      is_expired h f = false -> is_expired h' f = true ->
      exists o, In (valid o) (observers f) /\ observer_dtor o h = Some h').
Proof.
  split.
  - intros Hsteps (p & Hin & Hal & Hp).
    apply (is_expired_of_token h' f p Hin).
    by destruct (heap_steps_expired _ _ _ Hsteps Hal Hp).
  - intros Hstep Hlive Hdead.
    apply any_expired_in in Hdead as (p & Hin & Hp').
    pose proof (live_entry_tokens h f p Hlive Hin) as Hp.
    destruct (heap_step_dies h h' p Hstep Hp Hp') as (o & b & <- & Hd & _).
    by exists o.
Qed.

Lemma entry_expiry_is_one_way_witness :
  is_expired [ControlBlock true 0 1; ControlBlock true 1 0]
    (MkFunctionPair (Function 1 (fun x : Z => x + 1)%Z) [0]) = true.
Proof.
  apply (proj1 (entry_expiry_is_one_way
    (MkFunctionPair (Function 1 (fun x : Z => x + 1)%Z) [0])
    [ControlBlock true 0 1] [ControlBlock true 0 1; ControlBlock true 1 0])).
  - eapply steps_step; [|apply steps_refl].
    exact (step_observer_ctor [ControlBlock true 0 1]).
  - exists 0. split; [by left|]. split; [|reflexivity].
    unfold allocated. simpl. lia.
Defined.

(** X13: observers do not share tokens unless copied.  Two observers
    constructed one after the other hold different tokens, both valid;
    destroying the first expires its token, leaves the token of the
    second valid and leaves every control block but its own as it was. *)
Theorem observers_are_independent (h : heap) :
  let '(o1, h1) := observer_ctor h in
  let '(o2, h2) := observer_ctor h1 in
  valid o1 <> valid o2
  /\ expired h2 (valid o1) = false
  /\ expired h2 (valid o2) = false
  /\ exists h3,
      observer_dtor o1 h2 = Some h3
      /\ expired h3 (valid o1) = true
      /\ expired h3 (valid o2) = false
      /\ forall q, q <> valid o1 -> h3 !! q = h2 !! q.
Proof.
  cbn [observer_ctor make_shared valid].
  set (cb := ControlBlock true 1 0).
  assert (((h ++ [cb]) ++ [cb]) !! length h = Some cb) as H1.
  { rewrite lookup_app_l by (rewrite length_app; simpl; lia).
    by apply list_lookup_middle. }
  assert (((h ++ [cb]) ++ [cb]) !! length (h ++ [cb]) = Some cb) as H2.
  { by apply list_lookup_middle. }
  assert (length h <> length (h ++ [cb])) as Hne.
  { rewrite length_app. simpl. lia. }
  split; [done|].
  split; [unfold expired; by rewrite H1|].
  split; [unfold expired; by rewrite H2|].
  exists (shared_release (length h) ((h ++ [cb]) ++ [cb])).
  split; [unfold observer_dtor, expired; cbn [valid]; by rewrite H1|].
  unfold shared_release, expired.
  split; [by rewrite list_lookup_alter_eq, H1|].
  split; [by rewrite list_lookup_alter_ne, H2|].
  intros q Hq. by rewrite list_lookup_alter_ne.
Qed.

(** X14: a copy of an observer shares the token of the original and is
    one more owner of it; destroying the copy gives back the heap as it
    was before the copy, so passing an observer by value costs nothing. *)
Theorem observer_copy_then_destroy (o o' : observer) (h h' : heap)
    (Hcopy : observer_copy o h = Some (o', h')) :
  valid o' = valid o
  /\ expired h' (valid o) = false
  /\ (exists b n, token_state h (valid o) = Some (b, S n)
                 /\ token_state h' (valid o) = Some (b, S (S n)))
  /\ (forall q, q <> valid o -> h' !! q = h !! q)
  /\ observer_dtor o' h' = Some h.
Proof.
  unfold observer_copy in Hcopy.
  destruct (expired h (valid o)) eqn:Hlive; [done|].
  injection Hcopy as <- <-. cbn [valid].
  unfold expired in Hlive.
  destruct (h !! valid o) as [[b u w]|] eqn:Hcb; [|done].
  destruct u as [|n]; [done|].
  assert (expired (shared_copy (valid o) h) (valid o) = false) as Hlive'.
  { unfold expired, shared_copy. by rewrite list_lookup_alter_eq, Hcb. }
  split; [done|]. split; [exact Hlive'|]. split.
  { exists b, n. unfold token_state, shared_copy.
    by rewrite list_lookup_alter_eq, Hcb. }
  split.
  { intros q Hq. unfold shared_copy. by rewrite list_lookup_alter_ne. }
  unfold observer_dtor. cbn [valid]. rewrite Hlive'. f_equal.
  unfold shared_release, shared_copy.
  apply list_eq. intros q. destruct (decide (valid o = q)) as [<-|Hne].
  - by rewrite !list_lookup_alter_eq, Hcb.
  - by rewrite !list_lookup_alter_ne.
Qed.

Lemma observer_copy_then_destroy_witness :
  observer_dtor (Observer 0) [ControlBlock true 2 0]
    = Some [ControlBlock true 1 0].
Proof.
  apply (observer_copy_then_destroy (Observer 0) (Observer 0)
    [ControlBlock true 1 0] [ControlBlock true 2 0]).
  reflexivity.
Defined.

(** ** The wrapper over its life *)

(** X15: a wrapper never changes the value it was constructed with:
    after any assignments [get] and [operator*] return what they returned
    before them, and a wrapper that nothing subscribed to is, with the
    heap, exactly as it was constructed. *)
Theorem delegate_value_holds_initial_value {type_info T}
    (h : heap) (self : delegate_value type_info T) (v : T) (vs : list T) :
  get (assign_all h self vs).2 = get self
  /\ deref (assign_all h self vs).2 = deref self
  /\ get (delegate_value_ctor (type_info := type_info) v) = v
  /\ assign_all h (delegate_value_ctor (type_info := type_info) v) vs =
       (h, delegate_value_ctor v).
Proof.
  assert (forall h0 (s : delegate_value type_info T),
    get (assign_all h0 s vs).2 = get s) as Hget.
  { induction vs as [|u us IH]; intros h0 s; [done|].
    cbn [assign_all]. rewrite IH. unfold assign, write_value, read_value.
    cbn [this_value param_value].
    by destruct (Invoke h0 (base s) u) as [[h1 d1] tr]. }
  split; [apply Hget|]. split; [apply Hget|]. split; [done|].
  clear Hget. induction vs as [|u us IH]; [done|].
  cbn [assign_all]. exact IH.
Qed.
